(** * libadblockplus: the default file system and the script engine glue

  A shallow embedding of [src/DefaultFileSystem.cpp] and
  [src/JsEngine.cpp].  C++ code that throws, touches the operating
  system or the script engine is written in a small state-and-exception
  monad; the operating system and V8 are explicit, partly abstract,
  worlds. *)

From Stdlib Require Import ZArith Strings.Byte Strings.Ascii.
From stdpp Require Import base option strings pretty list gmap.


(** ** C++ control flow: results, exceptions, undefined behaviour *)

Module Cpp.

(** The dynamic class of a thrown [std::exception]. *)
Inductive exception_class :=
| runtime_error
| RuntimeErrorWithErrno
| JsError
| other_std_exception.

(** What a [throw] carries: an object derived from [std::exception]
    (caught by [catch (std::exception& e)], with its [what()]), or any
    other value (only caught by [catch (...)]). *)
Inductive exception :=
| std_exception (cls : exception_class) (what : string)
| foreign_value.

(** The three ways a call can end.  [Undefined] is undefined behaviour:
    the standard gives the call no meaning. *)
Inductive outcome (S A : Type) :=
| Returned (a : A) (s : S)
| Threw (e : exception) (s : S)
| Undefined.
Arguments Returned {S A} a s.
Arguments Threw {S A} e s.
Arguments Undefined {S A}.

Definition M (S A : Type) : Type := S → outcome S A.

Definition ret {S A} (a : A) : M S A := fun s => Returned a s.

Definition bind {S A B} (m : M S A) (k : A → M S B) : M S B :=
  fun s =>
    match m s with
    | Returned a s' => k a s'
    | Threw e s' => Threw e s'
    | Undefined => Undefined
    end.

Definition throw {S A} (e : exception) : M S A := fun s => Threw e s.
Definition undefined {S A} : M S A := fun _ => Undefined.
Definition get {S} : M S S := fun s => Returned s s.
Definition put {S} (s : S) : M S unit := fun _ => Returned tt s.
Definition modify {S} (f : S → S) : M S unit := fun s => Returned tt (f s).

(** [try { body } catch (std::exception& e) { on_std e.what() }
    catch (...) { on_other }]. *)
Definition try_catch {S A} (body : M S A)
    (on_std : string → M S A) (on_other : M S A) : M S A :=
  fun s =>
    match body s with
    | Returned a s' => Returned a s'
    | Threw (std_exception _ what) s' => on_std what s'
    | Threw foreign_value s' => on_other s'
    | Undefined => Undefined
    end.

(** Runs [m] on a component of the state ([get]/[set] are its lens). *)
Definition zoom {S T A} (get : S → T) (set : T → S → S) (m : M T A) : M S A :=
  fun s =>
    match m (get s) with
    | Returned a t => Returned a (set t s)
    | Threw e t => Threw e (set t s)
    | Undefined => Undefined
    end.

End Cpp.
Import Cpp.

#[global] Instance M_ret {S} : MRet (M S) := fun A a => Cpp.ret a.
#[global] Instance M_bind {S} : MBind (M S) := fun A B k m => Cpp.bind m k.

(** ** [std::string] *)

Module StdString.

(** [*s.begin()]; no value on the empty string. *)
Definition front (s : string) : option ascii :=
  match s with EmptyString => None | String c _ => Some c end.

(** [*s.rbegin()]: the last character.  On the empty string [rbegin()]
    equals [rend()] and dereferencing it reads before the buffer: there
    is no value. *)
Fixpoint back (s : string) : option ascii :=
  match s with
  | EmptyString => None
  | String c EmptyString => Some c
  | String _ rest => back rest
  end.

Fixpoint take (n : nat) (s : string) : string :=
  match n, s with
  | S n', String c rest => String c (take n' rest)
  | _, _ => EmptyString
  end.

Fixpoint nul_fill (n : nat) : string :=
  match n with O => EmptyString | S n' => String Ascii.zero (nul_fill n') end.

(** [s.resize(n)]: truncates, or pads with NUL characters. *)
Definition resize (n : nat) (s : string) : string :=
  if decide (n ≤ String.length s)%nat then take n s
  else s +:+ nul_fill (n - String.length s).

(** [s + c] for a [char] c. *)
Definition push (s : string) (c : ascii) : string := s +:+ String c EmptyString.

End StdString.

(** ** The operating system, as far as the file system code sees it *)

Module Posix.

(** [IFileSystem::IOBuffer] is [std::vector<uint8_t>]. *)
Definition IOBuffer : Type := list byte.

Record timespec := { tv_sec : Z; tv_nsec : Z }.

(** What [stat] reports about a directory entry, and the bytes that
    reading a stream opened on it delivers: for a regular file its
    contents; for any other kind of entry whatever the kernel hands out
    (nothing for a directory or for [/dev/null]). *)
Record inode := {
  st_mode : Z;
  st_mtim : timespec;
  st_data : IOBuffer
}.

Definition S_IFMT : Z := 61440.   (* 0170000 *)
Definition S_IFDIR : Z := 16384.  (* 0040000 *)
Definition S_IFREG : Z := 32768.  (* 0100000 *)
Definition S_ISREG (m : Z) : bool := Z.eqb (Z.land m S_IFMT) S_IFREG.
Definition S_ISDIR (m : Z) : bool := Z.eqb (Z.land m S_IFMT) S_IFDIR.

Definition ENOENT : Z := 2.
Definition EACCES : Z := 13.
Definition EISDIR : Z := 21.

(** The calls that reach the kernel. *)
Inductive syscall :=
| sys_open_rdonly (path : string)
| sys_open_trunc (path : string)
| sys_write (path : string)
| sys_rename (oldpath newpath : string)
| sys_remove (path : string)
| sys_stat (path : string).

(** The state of the platform.  [disk] holds the entries that exist;
    [fault] stands for every error the kernel can answer a call with
    that the model of the disk does not derive itself (permissions, a
    missing parent directory, a full or failing device, ...): when it is
    [Some e] the call fails with [errno = e] and changes nothing.
    [strerror] is the C library's message table and [clock] the time the
    kernel stamps on modified entries.  [seek_end] is the offset the
    kernel answers when a stream on an entry that is no regular file is
    positioned at its end (some large number for a directory, 0 for
    [/dev/null], negative where it refuses, as for a pipe), and [memory]
    is the number of bytes the allocator can still hand out.

    The name space is flat: every path string is an entry of its own.
    Two names of one file, the entries inside a directory and the time
    stamps of parent directories are not followed, so nothing is read
    off this model about what a call leaves at other paths. *)
Record OS := {
  disk : gmap string inode;
  fault : syscall → option Z;
  errno : Z;
  strerror : Z → string;
  clock : timespec;
  seek_end : string → Z;
  memory : Z
}.

Definition set_errno (e : Z) (os : OS) : OS :=
  {| disk := disk os; fault := fault os; errno := e;
     strerror := strerror os; clock := clock os;
     seek_end := seek_end os; memory := memory os |}.

Definition set_disk (d : gmap string inode) (os : OS) : OS :=
  {| disk := d; fault := fault os; errno := errno os;
     strerror := strerror os; clock := clock os;
     seek_end := seek_end os; memory := memory os |}.

(** A failing call: sets [errno], leaves the disk alone. *)
Definition fail_with {A} (e : Z) (r : A) : M OS A :=
  Cpp.modify (set_errno e);; mret r.

Definition zero_stat : inode :=
  {| st_mode := 0; st_mtim := {| tv_sec := 0; tv_nsec := 0 |}; st_data := [] |}.

(** [int stat(path, &nativeStat)]: the return value and the
    buffer (only meaningful when the call returned 0). *)
Definition stat (path : string) : M OS (Z * inode) :=
  os ← Cpp.get;
  match fault os (sys_stat path) with
  | Some e => fail_with e (-1, zero_stat)%Z
  | None =>
      match disk os !! path with
      | None => fail_with ENOENT (-1, zero_stat)%Z
      | Some ino => mret (0%Z, ino)
      end
  end.

(** [int rename(oldpath, newpath)] *)
Definition rename (oldpath newpath : string) : M OS Z :=
  os ← Cpp.get;
  match fault os (sys_rename oldpath newpath) with
  | Some e => fail_with e (-1)%Z
  | None =>
      match disk os !! oldpath with
      | None => fail_with ENOENT (-1)%Z
      | Some ino =>
          Cpp.modify (set_disk (<[newpath := ino]> (delete oldpath (disk os))));;
          mret 0%Z
      end
  end.

(** [int remove(path)] *)
Definition remove (path : string) : M OS Z :=
  os ← Cpp.get;
  match fault os (sys_remove path) with
  | Some e => fail_with e (-1)%Z
  | None =>
      match disk os !! path with
      | None => fail_with ENOENT (-1)%Z
      | Some _ => Cpp.modify (set_disk (delete path (disk os)));; mret 0%Z
      end
  end.

(** *** [std::ifstream] *)

Record ifstream := {
  in_buf : IOBuffer;     (* the bytes reading delivers *)
  in_end : Z;            (* the offset of the end, as the kernel answers *)
  in_pos : Z;            (* get position *)
  in_failbit : bool
}.

Definition closed_ifstream : ifstream :=
  {| in_buf := []; in_end := 0; in_pos := 0; in_failbit := true |}.

(** Where the end of a stream on an entry is: after the last byte of a
    regular file; for anything else the kernel says. *)
Definition end_offset (os : OS) (path : string) (ino : inode) : Z :=
  if S_ISREG (st_mode ino) then Z.of_nat (length (st_data ino))
  else seek_end os path.

(** [std::ifstream file(path, std::ios_base::binary)] *)
Definition ifstream_open (path : string) : M OS ifstream :=
  os ← Cpp.get;
  match fault os (sys_open_rdonly path) with
  | Some e => fail_with e closed_ifstream
  | None =>
      match disk os !! path with
      | None => fail_with ENOENT closed_ifstream
      | Some ino =>
          mret {| in_buf := st_data ino; in_end := end_offset os path ino;
                  in_pos := 0; in_failbit := false |}
      end
  end.

(** [file.fail()] *)
Definition ifstream_fail (file : ifstream) : bool := in_failbit file.

(** [file.seekg(0, std::ios_base::end)]: a stream that cannot be
    positioned gets its [failbit] set. *)
Definition seekg_end (file : ifstream) : ifstream :=
  if in_failbit file then file
  else if decide (in_end file < 0)%Z
       then {| in_buf := in_buf file; in_end := in_end file;
               in_pos := in_pos file; in_failbit := true |}
       else {| in_buf := in_buf file; in_end := in_end file;
               in_pos := in_end file; in_failbit := false |}.

(** [file.seekg(0, std::ios_base::beg)] *)
Definition seekg_beg (file : ifstream) : ifstream :=
  if in_failbit file then file
  else {| in_buf := in_buf file; in_end := in_end file;
          in_pos := 0; in_failbit := false |}.

(** [file.tellg()]: [-1] on a failed stream. *)
Definition tellg (file : ifstream) : Z :=
  if in_failbit file then (-1)%Z else in_pos file.

(** [file.read(data.data(), n)]: copies what is left of the stream, at
    most [n] bytes, over the front of [data]; fewer than [n] sets
    [failbit]. *)
Definition ifstream_read (file : ifstream) (data : IOBuffer) (n : nat)
    : ifstream * IOBuffer :=
  if in_failbit file then (file, data)
  else
    let got := take n (drop (Z.to_nat (in_pos file)) (in_buf file)) in
    ({| in_buf := in_buf file;
        in_end := in_end file;
        in_pos := in_pos file + Z.of_nat (length got);
        in_failbit := bool_decide (length got < n)%nat |},
     (got ++ drop (length got) data)%list).

(** [IOBuffer data(dataSize)]: [dataSize] zero bytes.  A negative stream
    position converts to a size beyond [max_size()], and the constructor
    throws; so does the allocator when it cannot find that many bytes. *)
Definition IOBuffer_new (dataSize : Z) : M OS IOBuffer :=
  if decide (dataSize < 0)%Z
  then Cpp.throw (std_exception other_std_exception
                    "cannot create std::vector larger than max_size()")
  else
    os ← Cpp.get;
    if decide (memory os < dataSize)%Z
    then Cpp.throw (std_exception other_std_exception "std::bad_alloc")
    else mret (replicate (Z.to_nat dataSize) x00).

(** *** [std::ofstream] *)

Record ofstream := {
  out_path : string;
  out_failbit : bool;
  out_pending : IOBuffer   (* written to the stream, not yet to the disk *)
}.

(** [std::ofstream file(path, std::ios_base::out | std::ios_base::binary)]:
    creates a regular file or truncates the one that is there.  A
    directory cannot be opened for writing; any other kind of entry (a
    device, a pipe) opens as it is, neither truncated nor stamped. *)
Definition ofstream_open (path : string) : M OS ofstream :=
  os ← Cpp.get;
  let failed := {| out_path := path; out_failbit := true; out_pending := [] |} in
  let opened := {| out_path := path; out_failbit := false; out_pending := [] |} in
  match fault os (sys_open_trunc path) with
  | Some e => fail_with e failed
  | None =>
      match disk os !! path with
      | Some ino =>
          if S_ISDIR (st_mode ino) then fail_with EISDIR failed
          else if S_ISREG (st_mode ino) then
            Cpp.modify (set_disk (<[path := {| st_mode := st_mode ino;
                                               st_mtim := clock os;
                                               st_data := [] |}]> (disk os)));;
            mret opened
          else mret opened
      | None =>
          Cpp.modify (set_disk (<[path := {| st_mode := Z.lor S_IFREG 420;
                                             st_mtim := clock os;
                                             st_data := [] |}]> (disk os)));;
          mret opened
      end
  end.

(** [file.write(data.data(), data.size())]: a failed stream ignores it. *)
Definition ofstream_write (file : ofstream) (data : IOBuffer) : ofstream :=
  if out_failbit file then file
  else {| out_path := out_path file; out_failbit := false;
          out_pending := (out_pending file ++ data)%list |}.

(** The destructor at the end of the scope: flushes what is pending and
    closes.  It reports nothing to the caller.  A regular file keeps the
    bytes; what another kind of entry does with them leaves no trace in
    this model. *)
Definition ofstream_close (file : ofstream) : M OS unit :=
  if out_failbit file then mret tt
  else
    os ← Cpp.get;
    match fault os (sys_write (out_path file)) with
    | Some e => fail_with e tt
    | None =>
        match disk os !! out_path file with
        | Some ino =>
            if S_ISREG (st_mode ino) then
              Cpp.modify (set_disk (<[out_path file :=
                                        {| st_mode := st_mode ino;
                                           st_mtim := clock os;
                                           st_data := (st_data ino ++ out_pending file)%list |}]>
                                      (disk os)))
            else mret tt
        | None => mret tt
        end
    end.

End Posix.
Import Posix.

(** ** [DefaultFileSystemSync]: the blocking engine *)

(** POSIX build: [PATH_SEPARATOR] is the slash. *)
Definition PATH_SEPARATOR : ascii := "/"%char.

(** POSIX build: file paths are used as they are. *)
Definition NormalizePath (path : string) : string := path.

(** [RuntimeErrorWithErrno(message)]: the constructor appends the text
    of the current [errno]. *)
Definition RuntimeErrorWithErrno_what (message : string) (os : OS) : string :=
  message +:+ " (" +:+ strerror os (errno os) +:+ ")".

Definition throw_RuntimeErrorWithErrno {A} (message : string) : M OS A :=
  os ← Cpp.get;
  Cpp.throw (std_exception RuntimeErrorWithErrno
               (RuntimeErrorWithErrno_what message os)).

Record StatResult := {
  exists_ : bool;
  isFile : bool;
  isDirectory : bool;
  lastModified : Z
}.

(** Modelled from the spec: the header declaring [IFileSystem::StatResult]
    and its default constructor is not among the sources; the data model
    gives the default (non-existent) result as all-false/zero. *)
Definition StatResult_default : StatResult :=
  {| exists_ := false; isFile := false; isDirectory := false; lastModified := 0 |}.

Definition MSEC_IN_SEC : Z := 1000.
Definition NSEC_IN_MSEC : Z := 1000000.

(** The object: its one data member. *)
Record DefaultFileSystemSync := { basePath : string }.

Module Sync.

Definition Read (path : string) : M OS IOBuffer :=
  file ← ifstream_open (NormalizePath path);
  if ifstream_fail file
  then throw_RuntimeErrorWithErrno ("Failed to open " +:+ path)
  else
    let file := seekg_end file in
    let dataSize := tellg file in
    let file := seekg_beg file in
    data ← IOBuffer_new dataSize;
    let '(_, data) := ifstream_read file data (length data) in
    mret data.

Definition Write (path : string) (data : IOBuffer) : M OS unit :=
  file ← ofstream_open (NormalizePath path);
  let file := ofstream_write file data in
  ofstream_close file.

Definition Move (fromPath toPath : string) : M OS unit :=
  r ← rename (NormalizePath fromPath) (NormalizePath toPath);
  if decide (r ≠ 0)%Z
  then throw_RuntimeErrorWithErrno
         ("Failed to move " +:+ fromPath +:+ " to " +:+ toPath)
  else mret tt.

Definition Remove (path : string) : M OS unit :=
  r ← remove (NormalizePath path);
  if decide (r ≠ 0)%Z
  then throw_RuntimeErrorWithErrno ("Failed to remove " +:+ path)
  else mret tt.

(** The POSIX branch, with [st_mtim] available.  The [int64_t]
    arithmetic is written in [Z]: it is the code's as long as the
    product stays within [int64_t], that is for time stamps within
    9223372036854775 seconds of the epoch; for the others the code's
    multiplication overflows and this definition is not to be read. *)
Definition Stat (path : string) : M OS StatResult :=
  let result := StatResult_default in
  '(failure, nativeStat) ← stat (NormalizePath path);
  if decide (failure ≠ 0)%Z
  then
    os ← Cpp.get;
    if decide (errno os = ENOENT)
    then mret result
    else throw_RuntimeErrorWithErrno ("Unable to stat " +:+ path)
  else
    mret {| exists_ := true;
            isFile := S_ISREG (st_mode nativeStat);
            isDirectory := S_ISDIR (st_mode nativeStat);
            lastModified :=
              (tv_sec (st_mtim nativeStat) * MSEC_IN_SEC
               + tv_nsec (st_mtim nativeStat) `quot` NSEC_IN_MSEC)%Z |}.

(** [Resolve] is a [const] member that only looks at [basePath] and its
    argument: a function. *)
Definition Resolve (this : DefaultFileSystemSync) (path : string) : string :=
  if String.eqb (basePath this) ""
  then path
  else
    match StdString.front path with
    | Some c =>
        if negb (Ascii.eqb c PATH_SEPARATOR)
        then StdString.push (basePath this) PATH_SEPARATOR +:+ path
        else path
    | None => path    (* path.length() is 0: the test stops there *)
    end.

(** [SetBasePath] assigns the member, then looks at [*basePath.rbegin()]
    without asking whether the string has a last character. *)
Definition SetBasePath (path : string) : M DefaultFileSystemSync unit :=
  Cpp.put {| basePath := path |};;
  this ← Cpp.get;
  match StdString.back (basePath this) with
  | None => Cpp.undefined
  | Some c =>
      if Ascii.eqb c PATH_SEPARATOR
      then Cpp.put {| basePath := StdString.resize (String.length (basePath this) - 1)
                                    (basePath this) |}
      else mret tt
  end.

End Sync.

(** ** [DefaultFileSystem]: the asynchronous adapter *)

(** What [syncImpl] points to: the engine's operations over some world
    [W].  [DefaultFileSystemSync] is the implementation the sources give;
    a derived or substituted engine may throw anything. *)
Record SyncImpl (W : Type) := {
  impl_Read : string → M W IOBuffer;
  impl_Write : string → IOBuffer → M W unit;
  impl_Move : string → string → M W unit;
  impl_Remove : string → M W unit;
  impl_Stat : string → M W StatResult;
  impl_Resolve : string → string
}.
Arguments impl_Read {W}.
Arguments impl_Write {W}.
Arguments impl_Move {W}.
Arguments impl_Remove {W}.
Arguments impl_Stat {W}.
Arguments impl_Resolve {W}.

Definition DefaultSyncImpl (this : DefaultFileSystemSync) : SyncImpl OS :=
  {| impl_Read := Sync.Read;
     impl_Write := Sync.Write;
     impl_Move := Sync.Move;
     impl_Remove := Sync.Remove;
     impl_Stat := Sync.Stat;
     impl_Resolve := Sync.Resolve this |}.

(** One call of a completion callback, with its arguments. *)
Inductive invocation :=
| call_ReadCallback (data : IOBuffer) (error : string)
| call_Callback (error : string)
| call_StatCallback (result : StatResult) (error : string).

(** A worker thread sees the world and, for the record, leaves a trace of
    the callback calls it made. *)
Record thread_state (W : Type) := {
  world : W;
  invoked : list invocation
}.
Arguments world {W}.
Arguments invoked {W}.

Module Async.

Section WithEngine.
Context {W : Type}.

(** Callbacks are [std::function]s: host code that runs in the world and
    may throw. *)
Definition ReadCallback : Type := IOBuffer → string → M W unit.
Definition Callback : Type := string → M W unit.
Definition StatCallback : Type := StatResult → string → M W unit.

Definition set_world (w : W) (t : thread_state W) : thread_state W :=
  {| world := w; invoked := invoked t |}.

Definition record_call (i : invocation) (t : thread_state W) : thread_state W :=
  {| world := world t; invoked := (invoked t ++ [i])%list |}.

(** Running engine or host code from the thread. *)
Definition in_world {A} (m : M W A) : M (thread_state W) A :=
  Cpp.zoom world set_world m.

(** Calling a callback: the call is noted, then the callee runs. *)
Definition invoke (i : invocation) (callee : M W unit) : M (thread_state W) unit :=
  Cpp.modify (record_call i);; in_world callee.

(** How a [try] block that contains a [return] ends when nothing is
    thrown. *)
Inductive flow :=
| returned_from_lambda
| after_handlers (error : string).

Variable syncImpl : SyncImpl W.


(** The lambda handed to [std::thread] by [DefaultFileSystem::Read]. *)
Definition Read_lambda (path : string) (callback : ReadCallback)
    : M (thread_state W) unit :=
  let error := "" in
  f ← Cpp.try_catch
        (data ← in_world (impl_Read syncImpl path);
         invoke (call_ReadCallback data error) (callback data error);;
         mret returned_from_lambda)
        (λ what, mret (after_handlers what))
        (mret (after_handlers ("Unknown error while reading from " +:+ path)));
  match f with
  | returned_from_lambda => mret tt
  | after_handlers error =>
      invoke (call_ReadCallback [] error) (callback [] error)
  end.

Definition Write_lambda (path : string) (data : IOBuffer) (callback : Callback)
    : M (thread_state W) unit :=
  error ← Cpp.try_catch
            (in_world (impl_Write syncImpl path data);; mret "")
            (λ what, mret what)
            (mret ("Unknown error while writing to " +:+ path));
  invoke (call_Callback error) (callback error).

Definition Move_lambda (fromPath toPath : string) (callback : Callback)
    : M (thread_state W) unit :=
  error ← Cpp.try_catch
            (in_world (impl_Move syncImpl fromPath toPath);; mret "")
            (λ what, mret what)
            (mret ("Unknown error while moving " +:+ fromPath +:+ " to " +:+ toPath));
  invoke (call_Callback error) (callback error).

Definition Remove_lambda (path : string) (callback : Callback)
    : M (thread_state W) unit :=
  error ← Cpp.try_catch
            (in_world (impl_Remove syncImpl path);; mret "")
            (λ what, mret what)
            (mret ("Unknown error while removing " +:+ path));
  invoke (call_Callback error) (callback error).

Definition Stat_lambda (path : string) (callback : StatCallback)
    : M (thread_state W) unit :=
  let error := "" in
  f ← Cpp.try_catch
        (result ← in_world (impl_Stat syncImpl path);
         invoke (call_StatCallback result error) (callback result error);;
         mret returned_from_lambda)
        (λ what, mret (after_handlers what))
        (mret (after_handlers ("Unknown error while calling stat on " +:+ path)));
  match f with
  | returned_from_lambda => mret tt
  | after_handlers error =>
      invoke (call_StatCallback StatResult_default error)
             (callback StatResult_default error)
  end.

(** [std::thread(lambda).detach()]: the lambda runs to its end on a
    thread of its own, from the world as it finds it.  (An exception that
    leaves the lambda ends the process through [std::terminate]; it shows
    as [Threw].) *)
Definition detached_thread (lambda : M (thread_state W) unit) (w : W)
    : outcome (thread_state W) unit :=
  lambda {| world := w; invoked := [] |}.

(** The callback calls a finished (or terminated) thread has made. *)
Definition calls (o : outcome (thread_state W) unit) : option (list invocation) :=
  match o with
  | Returned _ t => Some (invoked t)
  | Threw _ t => Some (invoked t)
  | Undefined => None
  end.

(** The five operations, each the work of one detached thread. *)
Definition Read (path : string) (callback : ReadCallback) :=
  detached_thread (Read_lambda path callback).
Definition Write (path : string) (data : IOBuffer) (callback : Callback) :=
  detached_thread (Write_lambda path data callback).
Definition Move (fromPath toPath : string) (callback : Callback) :=
  detached_thread (Move_lambda fromPath toPath callback).
Definition Remove (path : string) (callback : Callback) :=
  detached_thread (Remove_lambda path callback).
Definition Stat (path : string) (callback : StatCallback) :=
  detached_thread (Stat_lambda path callback).

(** [DefaultFileSystem::Resolve] forwards to the engine. *)
Definition Resolve (path : string) : string := impl_Resolve syncImpl path.

End WithEngine.

End Async.

(** ** [JsEngine]: ownership, callbacks, collaborators *)

Definition addr : Type := nat.

(** The data members of a [JsEngine] that this file's code reads or
    writes; a null [shared_ptr] is [None].  ([isolate] and [context]
    belong to V8.) *)
Record JsEngine := {
  fileSystem : option addr;
  webRequest : option addr;
  errorCallback : option addr
}.

Inductive object :=
| obj_JsEngine (e : JsEngine)
| obj_weak_ptr (target : addr)     (* a [std::tr1::weak_ptr<JsEngine>] made with [new] *)
| obj_DefaultFileSystem
| obj_DefaultWebRequest
| obj_DefaultErrorCallback
| obj_host (name : string).        (* a collaborator the host made *)

(** The control block of a shared object. *)
Record ref_counts := { use_count : nat; weak_count : nat }.

(** The free store.  [objects] holds the objects that are alive; a
    control block in [counts] outlives its object for as long as weak
    references remain.  [brk] is the next address [new] hands out. *)
Record Heap := {
  objects : gmap addr object;
  counts : gmap addr ref_counts;
  brk : addr
}.

Module Memory.

Definition set_objects (f : gmap addr object → gmap addr object) (h : Heap) : Heap :=
  {| objects := f (objects h); counts := counts h; brk := brk h |}.

Definition set_counts (f : gmap addr ref_counts → gmap addr ref_counts) (h : Heap) : Heap :=
  {| objects := objects h; counts := f (counts h); brk := brk h |}.

(** [new T(...)] *)
Definition new (o : object) : M Heap addr :=
  h ← Cpp.get;
  let p := brk h in
  Cpp.put {| objects := <[p := o]> (objects h); counts := counts h; brk := S p |};;
  mret p.

Definition add_use (c : ref_counts) : ref_counts :=
  {| use_count := S (use_count c); weak_count := weak_count c |}.
Definition add_weak (c : ref_counts) : ref_counts :=
  {| use_count := use_count c; weak_count := S (weak_count c) |}.
Definition drop_use (c : ref_counts) : ref_counts :=
  {| use_count := pred (use_count c); weak_count := weak_count c |}.

(** [w.expired()] for a weak reference observing [target]. *)
Definition expired (target : addr) (h : Heap) : bool :=
  match counts h !! target with
  | Some c => bool_decide (use_count c = 0)
  | None => true
  end.

(** [w.lock()]: a null pointer when the object is gone, else one more
    owner. *)
Definition lock (target : addr) : M Heap (option addr) :=
  h ← Cpp.get;
  if expired target h then mret None
  else Cpp.modify (set_counts (alter add_use target));; mret (Some target).

(** [shared_from_this()]; throws [std::tr1::bad_weak_ptr] for an object nobody
    owns. *)
Definition shared_from_this (this : addr) : M Heap addr :=
  p ← lock this;
  match p with
  | Some p => mret p
  | None => Cpp.throw (std_exception other_std_exception "tr1::bad_weak_ptr")
  end.

(** The end of a [shared_ptr]: the last owner destroys the object. *)
Definition release (p : addr) : M Heap unit :=
  h ← Cpp.get;
  match counts h !! p with
  | Some c =>
      Cpp.modify (set_counts (<[p := drop_use c]>));;
      if bool_decide (use_count c ≤ 1)%nat then Cpp.modify (set_objects (delete p))
      else mret tt
  | None => mret tt
  end.

(** [new std::tr1::weak_ptr<JsEngine>(shared)]: a weak reference on the
    free store. *)
Definition new_weak_ptr (shared : addr) : M Heap addr :=
  Cpp.modify (set_counts (alter add_weak shared));;
  new (obj_weak_ptr shared).

End Memory.

(** A [JsValue]: the engine it belongs to (a [JsEnginePtr]) and the V8
    value. *)
Record JsValue (V : Type) := {
  jsEngine : addr;
  value : V
}.
Arguments jsEngine {V}.
Arguments value {V}.

(** What V8 keeps of [FunctionTemplate::New(callback, External::New(data))]
    and hands back, as [arguments.Data()], whenever script code calls the
    function. *)
Record Function (InvocationCallback : Type) := {
  fn_callback : InvocationCallback;
  fn_data : addr
}.
Arguments fn_callback {InvocationCallback}.
Arguments fn_data {InvocationCallback}.

(** [v8::Arguments], as far as [FromArguments] reads it. *)
Record Arguments := { Data : addr }.

Definition oops : string := "Oops, our JsEngine is gone, how did that happen?".

Module Engine.

Definition NewCallback {InvocationCallback : Type} (this : addr)
    (callback : InvocationCallback) : M Heap (JsValue (Function InvocationCallback)) :=
  (* const Context context(shared_from_this()); *)
  tmp ← Memory.shared_from_this this;
  Memory.release tmp;;
  tmp ← Memory.shared_from_this this;
  data ← Memory.new_weak_ptr tmp;
  Memory.release tmp;;
  let templ := {| fn_callback := callback; fn_data := data |} in
  owner ← Memory.shared_from_this this;
  mret {| jsEngine := owner; value := templ |}.

Definition FromArguments (arguments : Arguments) : M Heap addr :=
  let external := Data arguments in
  h ← Cpp.get;
  match objects h !! external with
  | Some (obj_weak_ptr data) =>
      result ← Memory.lock data;
      match result with
      | None => Cpp.throw (std_exception runtime_error oops)
      | Some result => mret result
      end
  | _ => Cpp.undefined     (* the pointer does not lead to a weak_ptr *)
  end.

(** The engine object behind [this]; calling a member of a destroyed
    engine has no meaning. *)
Definition self (this : addr) : M Heap JsEngine :=
  h ← Cpp.get;
  match objects h !! this with
  | Some (obj_JsEngine e) => mret e
  | _ => Cpp.undefined
  end.

Definition store (this : addr) (e : JsEngine) : M Heap unit :=
  Cpp.modify (Memory.set_objects (<[this := obj_JsEngine e]>)).

Definition GetFileSystem (this : addr) : M Heap (option addr) :=
  e ← self this;
  match fileSystem e with
  | None =>
      p ← Memory.new obj_DefaultFileSystem;
      store this {| fileSystem := Some p; webRequest := webRequest e;
                    errorCallback := errorCallback e |};;
      mret (Some p)
  | Some p => mret (Some p)
  end.

Definition SetFileSystem (this : addr) (val : option addr) : M Heap unit :=
  match val with
  | None => Cpp.throw (std_exception runtime_error "FileSystem cannot be null")
  | Some _ =>
      e ← self this;
      store this {| fileSystem := val; webRequest := webRequest e;
                    errorCallback := errorCallback e |}
  end.

Definition GetWebRequest (this : addr) : M Heap (option addr) :=
  e ← self this;
  match webRequest e with
  | None =>
      p ← Memory.new obj_DefaultWebRequest;
      store this {| fileSystem := fileSystem e; webRequest := Some p;
                    errorCallback := errorCallback e |};;
      mret (Some p)
  | Some p => mret (Some p)
  end.

Definition SetWebRequest (this : addr) (val : option addr) : M Heap unit :=
  match val with
  | None => Cpp.throw (std_exception runtime_error "WebRequest cannot be null")
  | Some _ =>
      e ← self this;
      store this {| fileSystem := fileSystem e; webRequest := val;
                    errorCallback := errorCallback e |}
  end.

Definition GetErrorCallback (this : addr) : M Heap (option addr) :=
  e ← self this;
  match errorCallback e with
  | None =>
      p ← Memory.new obj_DefaultErrorCallback;
      store this {| fileSystem := fileSystem e; webRequest := webRequest e;
                    errorCallback := Some p |};;
      mret (Some p)
  | Some p => mret (Some p)
  end.

Definition SetErrorCallback (this : addr) (val : option addr) : M Heap unit :=
  match val with
  | None => Cpp.throw (std_exception runtime_error "ErrorCallback cannot be null")
  | Some _ =>
      e ← self this;
      store this {| fileSystem := fileSystem e; webRequest := webRequest e;
                    errorCallback := val |}
  end.

End Engine.

(** ** [JsEngine::Evaluate] over V8 *)

Module V8.

(** [s.c_str()] read as a C string: the bytes before the first NUL. *)
Fixpoint c_str (s : string) : string :=
  match s with
  | EmptyString => EmptyString
  | String c rest => if Ascii.eqb c Ascii.zero then EmptyString else String c (c_str rest)
  end.

Section Engine.

(** V8 itself is not modelled: its state, its values and its compiled
    scripts are whatever they are, and compiling and running are the
    functions V8 implements. *)
Variables Isolate Value Script : Type.

(** [*v8::String::Utf8Value(v)]: the textual form of a value. *)
Variable Utf8Value : Value → string.

(** [v8::Message], as far as it is read. *)
Record Message := {
  GetScriptResourceName : Value;
  GetLineNumber : Z
}.

(** What a [v8::TryCatch] holds once it has caught: the thrown value and
    a message handle, which may be empty. *)
Record Caught := {
  Exception : Value;
  caught_Message : option Message
}.

(** [v8::Script::Compile(source, name)] and [script->Run()]: a result,
    or an exception for the innermost [TryCatch]. *)
Variable Compile : string → option string → Isolate → (Script + Caught) * Isolate.
Variable Run : Script → Isolate → (Value + Caught) * Isolate.

Inductive api_call :=
| call_Compile (source : string) (name : option string)
| call_Run (script : Script).

Record World := {
  isolate : Isolate;
  tryCatch : option Caught;      (* [None]: [HasCaught()] is false *)
  api_calls : list api_call      (* the calls into V8 so far, for the record *)
}.

(** [const v8::TryCatch tryCatch;] *)
Definition TryCatch_new : M World unit :=
  Cpp.modify (λ w, {| isolate := isolate w; tryCatch := None; api_calls := api_calls w |}).

(** An API call that may throw into the [TryCatch]; a throwing call
    returns an empty handle. *)
Definition api {A} (c : api_call) (f : Isolate → (A + Caught) * Isolate)
    : M World (option A) :=
  w ← Cpp.get;
  let '(r, i) := f (isolate w) in
  let log := (api_calls w ++ [c])%list in
  match r with
  | inl a => Cpp.put {| isolate := i; tryCatch := tryCatch w; api_calls := log |};;
             mret (Some a)
  | inr c => Cpp.put {| isolate := i; tryCatch := Some c; api_calls := log |};;
             mret None
  end.

Definition Script_Compile (v8Source : string) (v8Filename : option string)
    : M World (option Script) :=
  api (call_Compile v8Source v8Filename) (Compile v8Source v8Filename).

(** [script->Run()]; through an empty handle it has no meaning. *)
Definition Script_Run (script : option Script) : M World (option Value) :=
  match script with
  | Some s => api (call_Run s) (Run s)
  | None => Cpp.undefined
  end.

Definition CompileScript (source filename : string) : M World (option Script) :=
  let v8Source := c_str source in
  if negb (String.length filename =? 0)%nat
  then
    let v8Filename := c_str filename in
    Script_Compile v8Source (Some v8Filename)
  else Script_Compile v8Source None.

Definition ExceptionToString (exception : Value) (message : option Message) : string :=
  let error := Utf8Value exception in
  match message with
  | Some message =>
      error +:+ " at " +:+ Utf8Value (GetScriptResourceName message)
            +:+ ":" +:+ pretty (GetLineNumber message)
  | None => error
  end.

(** [JsError(exception, message)] *)
Definition JsError_new (exception : Value) (message : option Message) : Cpp.exception :=
  std_exception JsError (ExceptionToString exception message).

Definition CheckTryCatch : M World unit :=
  w ← Cpp.get;
  match tryCatch w with
  | Some c => Cpp.throw (JsError_new (Exception c) (caught_Message c))
  | None => mret tt
  end.

(** [Evaluate]; the scoped [Context] (lock, handle scope, context scope)
    is V8's business and leaves no mark here. *)
Definition Evaluate (this : addr) (source filename : string)
    : M World (JsValue (option Value)) :=
  TryCatch_new;;
  script ← CompileScript source filename;
  CheckTryCatch;;
  result ← Script_Run script;
  CheckTryCatch;;
  mret {| jsEngine := this; value := result |}.

(** Whether a record of API calls has a [Run] in it. *)
Definition ran (log : list api_call) : bool :=
  existsb (λ c, match c with call_Run _ => true | call_Compile _ _ => false end) log.

End Engine.

Arguments GetScriptResourceName {Value}.
Arguments GetLineNumber {Value}.
Arguments Exception {Value}.
Arguments caught_Message {Value}.
Arguments call_Compile {Script}.
Arguments call_Run {Script}.
Arguments isolate {Isolate Value Script}.
Arguments tryCatch {Isolate Value Script}.
Arguments api_calls {Isolate Value Script}.
Arguments ran {Script}.

End V8.

(** ** The specification's wording, and example worlds *)

(** The words of the specification for [Resolve], as a function: a path
    is absolute when it starts with the separator and relative
    otherwise; a relative path is appended to the base, with a separator
    in between unless the base already ends in one. *)
Definition Resolve_as_specified (basePath path : string) : string :=
  if bool_decide (StdString.front path = Some PATH_SEPARATOR)
  then path
  else if bool_decide (StdString.back basePath = Some PATH_SEPARATOR)
       then basePath +:+ path
       else basePath +:+ String PATH_SEPARATOR "" +:+ path.

#[global] Instance syscall_eq_dec : EqDecision syscall.
Proof. solve_decision. Defined.

(** A few lines of the C library's message table. *)
Definition strerror_libc (e : Z) : string :=
  if decide (e = ENOENT) then "No such file or directory"
  else if decide (e = EACCES) then "Permission denied"
  else if decide (e = EISDIR) then "Is a directory"
  else "Unknown error " +:+ pretty e.

Definition regular_file (data : IOBuffer) : inode :=
  {| st_mode := Z.lor S_IFREG 420;
     st_mtim := {| tv_sec := 1500000000; tv_nsec := 250000000 |};
     st_data := data |}.

(** A machine with one file, and one directory that refuses writers. *)
Definition example_os : OS :=
  {| disk := {[ "/data/patterns.ini" := regular_file [x41; x42; x50] ]};
     fault := λ c,
       if decide (c = sys_open_trunc "/readonly/prefs.json") then Some EACCES
       else if decide (c = sys_stat "/root/secret") then Some EACCES
       else None;
     errno := 0;
     strerror := strerror_libc;
     clock := {| tv_sec := 1500000100; tv_nsec := 0 |};
     seek_end := λ _, 9223372036854775807%Z;
     memory := 17179869184%Z |}.

(** The buffer [Read] returns when the end of the stream is reported at
    offset [n] and reading delivers [buf]: what was delivered, at most
    [n] bytes of it, and zero bytes up to [n]. *)
Definition filled (n : nat) (buf : IOBuffer) : IOBuffer :=
  (take n buf ++ replicate (n - length (take n buf)) x00)%list.

(** A directory, and the example machine with one at "/data/dir". *)
Definition directory : inode :=
  {| st_mode := Z.lor S_IFDIR 493;
     st_mtim := {| tv_sec := 1500000000; tv_nsec := 0 |};
     st_data := [] |}.

Definition os_with_directory : OS :=
  set_disk (<["/data/dir" := directory]> (disk example_os)) example_os.

(** Callbacks for the examples: one that returns, one that throws a
    [std::runtime_error]. *)
Definition quiet_ReadCallback : @Async.ReadCallback OS := λ _ _, mret tt.
Definition quiet_Callback : @Async.Callback OS := λ _, mret tt.
Definition quiet_StatCallback : @Async.StatCallback OS := λ _ _, mret tt.
Definition throwing_ReadCallback : @Async.ReadCallback OS :=
  λ _ _, Cpp.throw (std_exception runtime_error "boom").
Definition throwing_StatCallback : @Async.StatCallback OS :=
  λ _ _, Cpp.throw (std_exception runtime_error "boom").

(** The error text the handlers of an operation arrive at, from how the
    engine call ended; [generic] is the text of the [catch (...)]
    handler. *)
Definition reported_error {W A} (generic : string) (o : outcome W A) : option string :=
  match o with
  | Returned _ _ => Some ""
  | Threw (std_exception _ what) _ => Some what
  | Threw foreign_value _ => Some generic
  | Undefined => None
  end.

Definition defined {S A} (o : outcome S A) : Prop := o ≠ Undefined.

Definition throwing_Callback : @Async.Callback OS :=
  λ _, Cpp.throw (std_exception runtime_error "boom").

(** An engine that throws something that is no [std::exception] from
    every operation. *)
Definition foreign_engine : SyncImpl OS :=
  {| impl_Read := λ _, Cpp.throw foreign_value;
     impl_Write := λ _ _, Cpp.throw foreign_value;
     impl_Move := λ _ _, Cpp.throw foreign_value;
     impl_Remove := λ _, Cpp.throw foreign_value;
     impl_Stat := λ _, Cpp.throw foreign_value;
     impl_Resolve := λ path, path |}.

(** Replacing one collaborator of an engine. *)
Definition with_fileSystem (v : option addr) (e : JsEngine) : JsEngine :=
  {| fileSystem := v; webRequest := webRequest e; errorCallback := errorCallback e |}.
Definition with_webRequest (v : option addr) (e : JsEngine) : JsEngine :=
  {| fileSystem := fileSystem e; webRequest := v; errorCallback := errorCallback e |}.
Definition with_errorCallback (v : option addr) (e : JsEngine) : JsEngine :=
  {| fileSystem := fileSystem e; webRequest := webRequest e; errorCallback := v |}.

(** What the specification asks of one collaborator slot of the engine
    [e] stored at [this] in the heap [h]: the getter makes a default
    object on first use, stores it and keeps returning it; the setter
    refuses null, leaving the heap as it was, and stores anything else. *)
Definition slot_contract
    (getter : addr → M Heap (option addr))
    (setter : addr → option addr → M Heap unit)
    (field : JsEngine → option addr)
    (assign : option addr → JsEngine → JsEngine)
    (default : object) (message : string)
    (this : addr) (e : JsEngine) (h : Heap) : Prop :=
  (field e = None →
   ∃ h', getter this h = Returned (Some (brk h)) h'
         ∧ objects h' !! brk h = Some default
         ∧ objects h' !! this = Some (obj_JsEngine (assign (Some (brk h)) e))
         ∧ getter this h' = Returned (Some (brk h)) h')
  ∧ (∀ p, field e = Some p → getter this h = Returned (Some p) h)
  ∧ setter this None h = Threw (std_exception runtime_error message) h
  ∧ (∀ p, ∃ h', setter this (Some p) h = Returned tt h'
                ∧ objects h' !! this = Some (obj_JsEngine (assign (Some p) e))
                ∧ getter this h' = Returned (Some p) h').

(** An engine with no collaborators yet, owned by the host, alone on the
    heap. *)
Definition example_engine : JsEngine :=
  {| fileSystem := None; webRequest := None; errorCallback := None |}.

Definition example_heap : Heap :=
  {| objects := {[ 1 := obj_JsEngine example_engine ]};
     counts := {[ 1 := {| use_count := 1; weak_count := 0 |} ]};
     brk := 2 |}.

(** The same heap after [NewCallback] has registered a callback (its
    weak reference sits at address 2) and every owner of the engine has
    let go: the engine is destroyed, its control block remains. *)
Definition heap_after_teardown : Heap :=
  {| objects := {[ 2 := obj_weak_ptr 1 ]};
     counts := {[ 1 := {| use_count := 0; weak_count := 1 |} ]};
     brk := 3 |}.

(** A stand-in for V8, for the examples: values and scripts are
    strings; one source does not compile and one script throws. *)
Definition toy_Compile (source : string) (name : option string) (i : unit)
    : (string + V8.Caught string) * unit :=
  if decide (source = "var x = ;")
  then (inr {| V8.Exception := "SyntaxError: Unexpected token ;";
               V8.caught_Message :=
                 Some {| V8.GetScriptResourceName := default "undefined" name;
                         V8.GetLineNumber := 1 |} |}, tt)
  else (inl source, tt).

Definition toy_Run (script : string) (i : unit)
    : (string + V8.Caught string) * unit :=
  if decide (script = "throw 'no';")
  then (inr {| V8.Exception := "no"; V8.caught_Message := None |}, tt)
  else (inl "42", tt).

Definition toy_world : V8.World unit string string :=
  {| V8.isolate := tt; V8.tryCatch := None; V8.api_calls := [] |}.

(** Whether a string has a NUL character in it. *)
Fixpoint has_NUL (s : string) : bool :=
  match s with
  | EmptyString => false
  | String c rest => Ascii.eqb c Ascii.zero || has_NUL rest
  end.






(** ** More of [JsEngine]: converting arguments, collecting garbage *)

Module Values.

Section ConvertArguments.
Context {V : Type}.




End ConvertArguments.

Section Gc.
Context {Isolate : Type}.

(** [v8::V8::IdleNotification()]: V8 does some work and says whether it
    is done. *)
Variable IdleNotification : Isolate → bool * Isolate.

(** [while (!v8::V8::IdleNotification());] watched for at most [fuel]
    rounds: [None] when the loop is still going after that many. *)
Fixpoint Gc (fuel : nat) (isolate : Isolate) : option Isolate :=
  match fuel with
  | O => None
  | S fuel' =>
      let '(finished, isolate') := IdleNotification isolate in
      if finished then Some isolate' else Gc fuel' isolate'
  end.

(** V8's state after [n] notifications, and what the next one answers. *)
Fixpoint notified (n : nat) (isolate : Isolate) : Isolate :=
  match n with
  | O => isolate
  | S n' => notified n' (snd (IdleNotification isolate))
  end.

Definition answer (n : nat) (isolate : Isolate) : bool :=
  fst (IdleNotification (notified n isolate)).

End Gc.

End Values.

(** A collector that needs three rounds: its state counts the work left. *)
Definition toy_IdleNotification (left : nat) : bool * nat :=
  (bool_decide (left ≤ 1), pred left).

(** The example machine with nothing in the way of writers. *)
Definition willing_os : OS :=
  {| disk := disk example_os; fault := λ _, None; errno := 0;
     strerror := strerror_libc; clock := clock example_os;
     seek_end := seek_end example_os; memory := memory example_os |}.

(** How a call into an engine like the one of the sources ends: it
    returns, or it throws a [std::exception] with a text. *)
Definition engine_like {S A} (o : outcome S A) : Prop :=
  match o with
  | Returned _ _ => True
  | Threw (std_exception _ what) _ => what ≠ ""
  | Threw foreign_value _ => False
  | Undefined => False
  end.

(** A callback that always returns. *)
Definition returns {S} (m : M S unit) : Prop := ∀ s, ∃ s', m s = Returned tt s'.


(** * Properties *)

(** ** Strings *)

Lemma append_cons a s t : String a s +:+ t = String a (s +:+ t).
Proof. reflexivity. Qed.

Lemma append_assoc (s t u : string) : (s +:+ t) +:+ u = s +:+ t +:+ u.
Proof. induction s as [|a s IH]; [done|]. rewrite !append_cons. by f_equal. Qed.

Lemma back_push s c : StdString.back (StdString.push s c) = Some c.
Proof.
  unfold StdString.push. induction s as [|a s IH]; [done|].
  rewrite append_cons. cbn [StdString.back].
  destruct (s +:+ String c "") eqn:E; [|exact IH].
  destruct s; discriminate.
Qed.

Lemma length_push s c :
  String.length (StdString.push s c) = S (String.length s).
Proof.
  unfold StdString.push. induction s as [|a s IH]; [done|].
  rewrite append_cons. cbn [String.length]. by rewrite IH.
Qed.

Lemma take_push s c : StdString.take (String.length s) (StdString.push s c) = s.
Proof.
  unfold StdString.push. induction s as [|a s IH]; [done|].
  rewrite append_cons. cbn [String.length StdString.take]. by rewrite IH.
Qed.

Lemma back_None s : StdString.back s = None ↔ s = "".
Proof.
  split; [|by intros ->].
  induction s as [|a s IH]; [done|].
  cbn [StdString.back]. destruct s; [done|]. intros H. by specialize (IH H).
Qed.

(** A string with a last character is that character pushed onto the
    rest. *)
Lemma back_Some s c : StdString.back s = Some c → ∃ p, s = StdString.push p c.
Proof.
  unfold StdString.push. induction s as [|a s IH]; [done|].
  cbn [StdString.back]. destruct s as [|b s].
  - intros [= ->]. by exists "".
  - intros H. destruct (IH H) as [p Hp]. exists (String a p).
    rewrite append_cons. by f_equal.
Qed.

Lemma push_inj s t c : StdString.push s c = StdString.push t c → s = t.
Proof.
  unfold StdString.push. revert t. induction s as [|a s IH]; intros [|b t]; [done|..].
  - rewrite append_cons. intros [= <- H]. by destruct t.
  - rewrite append_cons. intros [= -> H]. by destruct s.
  - rewrite !append_cons. intros [= -> H]. f_equal. by apply IH.
Qed.

Lemma resize_drops_pushed s c :
  StdString.resize (String.length (StdString.push s c) - 1) (StdString.push s c) = s.
Proof.
  rewrite length_push.
  replace (S (String.length s) - 1) with (String.length s) by lia.
  unfold StdString.resize. rewrite length_push.
  destruct (decide _) as [_|H]; [apply take_push|lia].
Qed.

(** ** [SetBasePath] and [Resolve] *)

(** What [SetBasePath] does, by the last character of its argument. *)
Lemma SetBasePath_empty this : Sync.SetBasePath "" this = Undefined.
Proof. reflexivity. Qed.

Lemma SetBasePath_separator p this :
  Sync.SetBasePath (StdString.push p PATH_SEPARATOR) this
  = Returned tt {| basePath := p |}.
Proof.
  unfold Sync.SetBasePath, mbind, M_bind, Cpp.bind, Cpp.put, Cpp.get. cbn [basePath].
  rewrite back_push, resize_drops_pushed. reflexivity.
Qed.

Lemma SetBasePath_other path c this :
  StdString.back path = Some c → c ≠ PATH_SEPARATOR →
  Sync.SetBasePath path this = Returned tt {| basePath := path |}.
Proof.
  intros Hb Hc.
  unfold Sync.SetBasePath, mbind, M_bind, Cpp.bind, Cpp.put, Cpp.get. cbn [basePath].
  rewrite Hb. destruct (Ascii.eqb_spec c PATH_SEPARATOR); [done|reflexivity].
Qed.

(** C3, the claim as amended: [Resolve] is a function of the stored base
    path and the argument alone.  When the base path is not empty and the
    path is not empty and does not start with the separator, the result
    is the base path, one separator (always), and the path; in every
    other case (empty base path, empty path, path starting with the
    separator) the path comes back unchanged.  With the base path "/a/b",
    "c" gives "/a/b/c" and "/c" gives "/c".  The adapter's [Resolve] is
    the engine's. *)
Theorem Resolve_by_cases (this : DefaultFileSystemSync) (path : string) :
  (basePath this ≠ "" → path ≠ "" →
   StdString.front path ≠ Some PATH_SEPARATOR →
   Sync.Resolve this path = basePath this +:+ "/" +:+ path)
  ∧ (StdString.front path = Some PATH_SEPARATOR → Sync.Resolve this path = path)
  ∧ (basePath this = "" → Sync.Resolve this path = path)
  ∧ (path = "" → Sync.Resolve this path = path)
  ∧ Sync.Resolve {| basePath := "/a/b" |} "c" = "/a/b/c"
  ∧ Sync.Resolve {| basePath := "/a/b" |} "/c" = "/c"
  ∧ Async.Resolve (DefaultSyncImpl this) path = Sync.Resolve this path.
Proof.
  unfold Sync.Resolve. repeat split.
  - intros Hb Hp Hf. destruct (String.eqb_spec (basePath this) ""); [done|].
    destruct path as [|c rest]; [done|]. cbn [StdString.front] in *.
    destruct (Ascii.eqb_spec c PATH_SEPARATOR) as [->|_]; [done|].
    cbn [negb]. unfold StdString.push. apply append_assoc.
  - intros Hf. destruct (String.eqb (basePath this) ""); [done|].
    rewrite Hf. by rewrite Ascii.eqb_refl.
  - intros ->. reflexivity.
  - intros ->. by destruct (String.eqb (basePath this) "").
Qed.

Lemma Resolve_by_cases_witness :
  Sync.Resolve {| basePath := "/data" |} "patterns.ini" = "/data/patterns.ini"
  ∧ Sync.Resolve {| basePath := "/data" |} "/etc/hosts" = "/etc/hosts"
  ∧ Sync.Resolve {| basePath := "" |} "patterns.ini" = "patterns.ini"
  ∧ Sync.Resolve {| basePath := "/data" |} "" = "".
Proof.
  split; [|split; [|split]].
  - apply (proj1 (Resolve_by_cases {| basePath := "/data" |} "patterns.ini"));
      cbn; intros [=].
  - apply (proj1 (proj2 (Resolve_by_cases {| basePath := "/data" |} "/etc/hosts"))).
    reflexivity.
  - apply (proj1 (proj2 (proj2 (Resolve_by_cases {| basePath := "" |} "patterns.ini")))).
    reflexivity.
  - apply (proj1 (proj2 (proj2 (proj2 (Resolve_by_cases {| basePath := "/data" |} ""))))).
    reflexivity.
Defined.

(** C3, the claim as stated, fails: an empty base path (the state
    [SetBasePath("/")] leaves) gives a relative path back as it is, with
    no separator in front; a stored base path that ends in a separator
    (the state [SetBasePath("/a/b//")] leaves) still gets one more; and
    an empty path is returned as it is. *)
Lemma Resolve_not_as_specified :
  Sync.SetBasePath "/" {| basePath := "/a/b" |} = Returned tt {| basePath := "" |}
  ∧ Sync.Resolve {| basePath := "" |} "c" = "c"
  ∧ Resolve_as_specified "" "c" = "/c"
  ∧ Sync.SetBasePath "/a/b//" {| basePath := "" |} = Returned tt {| basePath := "/a/b/" |}
  ∧ Sync.Resolve {| basePath := "/a/b/" |} "c" = "/a/b//c"
  ∧ Resolve_as_specified "/a/b/" "c" = "/a/b/c"
  ∧ Sync.Resolve {| basePath := "/a/b" |} "" = ""
  ∧ Resolve_as_specified "/a/b" "" = "/a/b/"
  ∧ ¬ (∀ this path,
         Sync.Resolve this path = Resolve_as_specified (basePath this) path).
Proof.
  repeat split; try reflexivity.
  intros H. specialize (H {| basePath := "" |} "c"). discriminate H.
Qed.

(** C8: for a non-empty argument [SetBasePath] returns, and the base
    path it stores is the argument itself when that does not end in the
    separator, and otherwise the argument without its last character,
    which is one separator (whatever comes before it stays, separators
    included).  So [SetBasePath("/a/b/")] and [SetBasePath("/a/b")] leave
    the same object, and [Resolve] agrees on every path afterwards. *)
Theorem SetBasePath_strips_one_separator (path : string) (this : DefaultFileSystemSync) :
  path ≠ "" →
  (∃ this',
     Sync.SetBasePath path this = Returned tt this'
     ∧ (StdString.back path = Some PATH_SEPARATOR
        → StdString.push (basePath this') PATH_SEPARATOR = path)
     ∧ (StdString.back path ≠ Some PATH_SEPARATOR → basePath this' = path))
  ∧ (∀ p, Sync.SetBasePath (StdString.push p PATH_SEPARATOR) this
          = Returned tt {| basePath := p |})
  ∧ Sync.SetBasePath "/a/b/" this = Sync.SetBasePath "/a/b" this
  ∧ (∀ q : string,
       match Sync.SetBasePath "/a/b/" this, Sync.SetBasePath "/a/b" this with
       | Returned _ with_slash, Returned _ without =>
           Sync.Resolve with_slash q = Sync.Resolve without q
       | _, _ => False
       end).
Proof.
  intros Hne. split; [|split; [|split]].
  - destruct (StdString.back path) as [c|] eqn:Hb.
    + destruct (decide (c = PATH_SEPARATOR)) as [->|Hc].
      * destruct (back_Some _ _ Hb) as [p ->].
        exists {| basePath := p |}. split; [apply SetBasePath_separator|]. by split.
      * exists {| basePath := path |}.
        split; [by eapply SetBasePath_other|]. split; [congruence|done].
    + by apply back_None in Hb.
  - intros p. apply SetBasePath_separator.
  - reflexivity.
  - intros q. reflexivity.
Qed.

Lemma SetBasePath_strips_one_separator_witness :
  "/a/b//" ≠ ""
  ∧ ∃ this',
      Sync.SetBasePath "/a/b//" {| basePath := "" |} = Returned tt this'
      ∧ (StdString.back "/a/b//" = Some PATH_SEPARATOR
         → StdString.push (basePath this') PATH_SEPARATOR = "/a/b//")
      ∧ (StdString.back "/a/b//" ≠ Some PATH_SEPARATOR → basePath this' = "/a/b//").
Proof.
  split; [discriminate|].
  apply (proj1 (SetBasePath_strips_one_separator "/a/b//" {| basePath := "" |}
                  ltac:(discriminate))).
Defined.

(** C10: [SetBasePath("")] is undefined behaviour: the stored string has
    no last character and [*basePath.rbegin()] is read all the same.  For
    every non-empty argument the last character exists, the read is in
    range, and the call returns (it neither throws nor is undefined). *)
Theorem SetBasePath_defined_iff_nonempty (path : string) (this : DefaultFileSystemSync) :
  (path = "" →
   StdString.back path = None ∧ Sync.SetBasePath path this = Undefined)
  ∧ (path ≠ "" →
     is_Some (StdString.back path)
     ∧ ∃ this', Sync.SetBasePath path this = Returned tt this')
  ∧ (Sync.SetBasePath path this = Undefined ↔ path = "").
Proof.
  assert (Hdef : path ≠ "" →
            is_Some (StdString.back path)
            ∧ ∃ this', Sync.SetBasePath path this = Returned tt this').
  { intros Hne. destruct (StdString.back path) as [c|] eqn:Hb.
    - split; [by eexists|].
      destruct (decide (c = PATH_SEPARATOR)) as [->|Hc].
      + destruct (back_Some _ _ Hb) as [p ->]. eexists. apply SetBasePath_separator.
      + eexists. by eapply SetBasePath_other.
    - by apply back_None in Hb. }
  split; [by intros ->|]. split; [exact Hdef|].
  split; [|by intros ->].
  intros Hu. destruct (decide (path = "")) as [|Hne]; [done|].
  destruct (Hdef Hne) as [_ [this' H]]. congruence.
Qed.

Lemma SetBasePath_defined_iff_nonempty_witness :
  (StdString.back "" = None
   ∧ Sync.SetBasePath "" {| basePath := "/a/b" |} = Undefined)
  ∧ (is_Some (StdString.back "/a/b/")
     ∧ ∃ this', Sync.SetBasePath "/a/b/" {| basePath := "" |} = Returned tt this').
Proof.
  split.
  - apply (proj1 (SetBasePath_defined_iff_nonempty "" {| basePath := "/a/b" |})).
    reflexivity.
  - apply (proj1 (proj2 (SetBasePath_defined_iff_nonempty "/a/b/" {| basePath := "" |}))).
    discriminate.
Defined.

(** ** The blocking engine *)

Ltac cpp_unfold :=
  unfold mbind, mret, M_bind, M_ret, Cpp.bind, Cpp.ret, Cpp.get,
    Cpp.put, Cpp.modify, Cpp.throw, Cpp.undefined in *.

Lemma set_errno_errno e os : errno (set_errno e os) = e.
Proof. reflexivity. Qed.

Lemma set_errno_strerror e os : strerror (set_errno e os) = strerror os.
Proof. reflexivity. Qed.

(** Opening for reading, case by case. *)
Lemma ifstream_open_fault path os e :
  fault os (sys_open_rdonly path) = Some e →
  ifstream_open path os = Returned closed_ifstream (set_errno e os).
Proof. intros H. unfold ifstream_open, fail_with. cpp_unfold. by rewrite H. Qed.

Lemma ifstream_open_absent path os :
  fault os (sys_open_rdonly path) = None → disk os !! path = None →
  ifstream_open path os = Returned closed_ifstream (set_errno ENOENT os).
Proof. intros H1 H2. unfold ifstream_open, fail_with. cpp_unfold. by rewrite H1, H2. Qed.

Lemma ifstream_open_present path os ino :
  fault os (sys_open_rdonly path) = None → disk os !! path = Some ino →
  ifstream_open path os
  = Returned {| in_buf := st_data ino; in_end := end_offset os path ino;
                in_pos := 0; in_failbit := false |} os.
Proof. intros H1 H2. unfold ifstream_open. cpp_unfold. by rewrite H1, H2. Qed.

(** Reading from the start into a buffer of [n] zero bytes. *)
Lemma read_from_start (buf : IOBuffer) (e : Z) (n : nat) :
  snd (ifstream_read {| in_buf := buf; in_end := e; in_pos := 0; in_failbit := false |}
         (replicate n x00) (length (replicate n x00)))
  = filled n buf.
Proof.
  unfold ifstream_read, filled. cbn [in_failbit in_pos in_buf snd].
  change (Z.to_nat 0) with 0. rewrite length_replicate, drop_0. f_equal.
  rewrite drop_replicate. done.
Qed.

Lemma filled_exact (buf : IOBuffer) : filled (length buf) buf = buf.
Proof.
  unfold filled. rewrite firstn_all, Nat.sub_diag. cbn. apply app_nil_r.
Qed.

(** What [Read] does once the stream is there.  It throws "Failed to
    open" when the stream failed to open.  Otherwise nothing is tested
    any more: whatever offset the end of the stream is reported at is
    the size of the buffer (the constructor throws when that is negative
    or more than the allocator has), and whatever the stream delivers
    goes into it. *)
Lemma Read_after_open path os file os' :
  ifstream_open path os = Returned file os' →
  in_pos file = 0%Z →
  Sync.Read path os =
    if in_failbit file
    then Threw (std_exception RuntimeErrorWithErrno
                  (("Failed to open " +:+ path) +:+ " (" +:+ strerror os' (errno os') +:+ ")"))
               os'
    else if decide (in_end file < 0)%Z
    then Threw (std_exception other_std_exception
                  "cannot create std::vector larger than max_size()") os'
    else if decide (memory os' < in_end file)%Z
    then Threw (std_exception other_std_exception "std::bad_alloc") os'
    else Returned (filled (Z.to_nat (in_end file)) (in_buf file)) os'.
Proof.
  intros Hopen Hpos. unfold Sync.Read, NormalizePath. cpp_unfold. rewrite Hopen.
  destruct file as [buf e pos [|]]; cbn [in_failbit in_pos in_buf in_end ifstream_fail] in *.
  - reflexivity.
  - subst pos. unfold seekg_end. cbn [in_failbit in_pos in_buf in_end].
    destruct (decide (e < 0)%Z) as [Hneg|Hpos].
    + unfold seekg_beg, tellg, IOBuffer_new. cbn [in_failbit]. cpp_unfold.
      by rewrite decide_True by lia.
    + unfold seekg_beg, tellg, IOBuffer_new. cbn [in_failbit in_pos in_buf in_end].
      cpp_unfold. rewrite decide_False by lia.
      destruct (decide (memory os' < e)%Z); [done|].
      pose proof (read_from_start buf e (Z.to_nat e)) as Hread.
      destruct (ifstream_read _ _ _) as [file' data]. cbn [snd] in Hread.
      by rewrite Hread.
Qed.

Lemma ifstream_open_returns path os :
  ∃ file os', ifstream_open path os = Returned file os' ∧ in_pos file = 0%Z.
Proof.
  destruct (fault os (sys_open_rdonly path)) as [e|] eqn:Hf.
  { eexists _, _. split; [by apply ifstream_open_fault|done]. }
  destruct (disk os !! path) as [ino|] eqn:Hd.
  - eexists _, _. split; [by eapply ifstream_open_present|done].
  - eexists _, _. split; [by apply ifstream_open_absent|done].
Qed.

(** [Read] throws its own "Failed to open" error exactly when the stream
    could not be opened. *)
Lemma Read_failed_to_open path os :
  (∀ e, fault os (sys_open_rdonly path) = Some e →
     Sync.Read path os
     = Threw (std_exception RuntimeErrorWithErrno
                (("Failed to open " +:+ path) +:+ " (" +:+ strerror os e +:+ ")"))
             (set_errno e os))
  ∧ (fault os (sys_open_rdonly path) = None → disk os !! path = None →
     Sync.Read path os
     = Threw (std_exception RuntimeErrorWithErrno
                (("Failed to open " +:+ path) +:+ " (" +:+ strerror os ENOENT +:+ ")"))
             (set_errno ENOENT os)).
Proof.
  split.
  - intros e He.
    by rewrite (Read_after_open _ _ _ _ (ifstream_open_fault _ _ _ He) eq_refl).
  - intros Hf Hd.
    by rewrite (Read_after_open _ _ _ _ (ifstream_open_absent _ _ Hf Hd) eq_refl).
Qed.

(** [Read] of a regular file that may be opened and fits in memory
    returns its bytes and leaves the platform as it was. *)
Lemma Read_present path os ino :
  fault os (sys_open_rdonly path) = None → disk os !! path = Some ino →
  S_ISREG (st_mode ino) = true →
  (Z.of_nat (length (st_data ino)) ≤ memory os)%Z →
  Sync.Read path os = Returned (st_data ino) os.
Proof.
  intros Hf Hd Hreg Hmem.
  rewrite (Read_after_open _ _ _ _ (ifstream_open_present _ _ _ Hf Hd) eq_refl).
  cbn [in_failbit in_end in_buf]. unfold end_offset. rewrite Hreg.
  rewrite decide_False by lia. rewrite decide_False by lia.
  by rewrite Nat2Z.id, filled_exact.
Qed.

(** [Read] of an entry that may be opened but is no regular file: the
    outcome is read off the offset the kernel reports for its end. *)
Lemma Read_not_regular path os ino :
  fault os (sys_open_rdonly path) = None → disk os !! path = Some ino →
  S_ISREG (st_mode ino) = false →
  Sync.Read path os =
    if decide (seek_end os path < 0)%Z
    then Threw (std_exception other_std_exception
                  "cannot create std::vector larger than max_size()") os
    else if decide (memory os < seek_end os path)%Z
    then Threw (std_exception other_std_exception "std::bad_alloc") os
    else Returned (filled (Z.to_nat (seek_end os path)) (st_data ino)) os.
Proof.
  intros Hf Hd Hreg.
  rewrite (Read_after_open _ _ _ _ (ifstream_open_present _ _ _ Hf Hd) eq_refl).
  cbn [in_failbit in_end in_buf]. unfold end_offset. by rewrite Hreg.
Qed.

(** C5, at the failing input: "/data/dir" is a directory.  The stream
    opens ([fail()] is false), so [Read] goes on; it tests nothing after
    that, takes the offset the kernel reports for the end of a directory
    as the size of the buffer, and the constructor of the buffer throws
    [std::bad_alloc]: [Read] fails although the open succeeded, and the
    text of the failure, which is what the adapter hands to the
    callback, names neither the path nor the error of the platform. *)
Theorem Read_of_a_directory_throws_bad_alloc :
  (∃ file, ifstream_open (NormalizePath "/data/dir") os_with_directory
           = Returned file os_with_directory
           ∧ ifstream_fail file = false)
  ∧ Sync.Read "/data/dir" os_with_directory
    = Threw (std_exception other_std_exception "std::bad_alloc") os_with_directory
  ∧ Async.calls (Async.Read (DefaultSyncImpl {| basePath := "" |})
                   "/data/dir" quiet_ReadCallback os_with_directory)
    = Some [call_ReadCallback [] "std::bad_alloc"]
  ∧ Sync.Read "/data/patterns.ini" os_with_directory
    = Returned [x41; x42; x50] os_with_directory
  ∧ Sync.Read "/data/missing" os_with_directory
    = Threw (std_exception RuntimeErrorWithErrno
               "Failed to open /data/missing (No such file or directory)")
            (set_errno ENOENT os_with_directory).
Proof.
  split; [eexists; split; reflexivity|]. repeat split; reflexivity.
Qed.

(** [stat] always returns, with 0 or -1. *)
Lemma stat_returns path os :
  (∃ ino, stat path os = Returned (0%Z, ino) os
          ∧ fault os (sys_stat path) = None ∧ disk os !! path = Some ino)
  ∨ (∃ e, stat path os = Returned ((-1)%Z, zero_stat) (set_errno e os)
          ∧ (fault os (sys_stat path) = Some e
             ∨ fault os (sys_stat path) = None ∧ disk os !! path = None ∧ e = ENOENT)).
Proof.
  unfold stat, fail_with. cpp_unfold.
  destruct (fault os (sys_stat path)) as [e|] eqn:Hf.
  { right. exists e. split; [done|by left]. }
  destruct (disk os !! path) as [ino|] eqn:Hd.
  - left. by exists ino.
  - right. exists ENOENT. split; [done|]. right. done.
Qed.

(** [Stat] after a [stat] that failed with [errno = e]. *)
Lemma Stat_after_failure path os e buf r :
  stat (NormalizePath path) os = Returned (r, buf) (set_errno e os) → r ≠ 0%Z →
  Sync.Stat path os =
    if decide (e = ENOENT)
    then Returned StatResult_default (set_errno e os)
    else Threw (std_exception RuntimeErrorWithErrno
                  (("Unable to stat " +:+ path) +:+ " (" +:+ strerror os e +:+ ")"))
               (set_errno e os).
Proof.
  intros Hs Hr. unfold Sync.Stat, throw_RuntimeErrorWithErrno. cpp_unfold.
  rewrite Hs. destruct (decide (r ≠ 0%Z)); [|done].
  cbn [errno set_errno]. by destruct (decide (e = ENOENT)).
Qed.



Lemma regular_or_directory m : S_ISREG m && S_ISDIR m = false.
Proof.
  unfold S_ISREG, S_ISDIR.
  destruct (Z.eqb_spec (Z.land m S_IFMT) S_IFREG) as [->|]; [reflexivity|done].
Qed.

(** [Write] has no [throw] in it and checks no stream state: whatever the
    platform answers, it returns. *)
Lemma Write_never_throws path data os :
  ∃ os', Sync.Write path data os = Returned tt os'.
Proof.
  unfold Sync.Write, ofstream_open, ofstream_close, ofstream_write, fail_with, NormalizePath.
  cpp_unfold.
  destruct (fault os (sys_open_trunc path)) as [e|] eqn:Hf; [by eexists|].
  destruct (disk os !! path) as [ino|] eqn:Hd.
  - destruct (S_ISDIR (st_mode ino)); [by eexists|].
    destruct (S_ISREG (st_mode ino)) eqn:Hreg.
    + cbn [out_failbit out_path out_pending fault set_disk disk].
      destruct (fault os (sys_write path)); [by eexists|].
      rewrite lookup_insert_eq. cbn [st_mode]. rewrite Hreg. by eexists.
    + cbn [out_failbit out_path out_pending fault set_disk disk].
      destruct (fault os (sys_write path)); [by eexists|].
      rewrite Hd, Hreg. by eexists.
  - cbn [out_failbit out_path out_pending fault set_disk disk].
    destruct (fault os (sys_write path)); [by eexists|].
    rewrite lookup_insert_eq. by eexists.
Qed.

(** [Write] when nothing is in the way, on a path that is free or holds
    a regular file: the entry it leaves. *)
Lemma Write_willing path data os :
  fault os (sys_open_trunc path) = None →
  fault os (sys_write path) = None →
  (∀ ino, disk os !! path = Some ino → S_ISREG (st_mode ino) = true) →
  Sync.Write path data os
  = Returned tt
      (set_disk (<[path := {| st_mode := match disk os !! path with
                                          | Some ino => st_mode ino
                                          | None => Z.lor S_IFREG 420
                                          end;
                              st_mtim := clock os;
                              st_data := data |}]> (disk os)) os).
Proof.
  intros Hf Hw Hreg.
  unfold Sync.Write, ofstream_open, ofstream_close, ofstream_write, fail_with, NormalizePath.
  cpp_unfold. rewrite Hf.
  destruct (disk os !! path) as [ino|] eqn:Hd.
  - pose proof (Hreg ino eq_refl) as Hr.
    assert (Hdir : S_ISDIR (st_mode ino) = false).
    { pose proof (regular_or_directory (st_mode ino)) as H. rewrite Hr in H. exact H. }
    rewrite Hdir, Hr.
    cbn [out_failbit out_path out_pending fault set_disk disk]. rewrite Hw.
    rewrite lookup_insert_eq. cbn [set_disk disk st_data st_mode clock app]. rewrite Hr.
    cbn [set_disk disk]. by rewrite insert_insert_eq.
  - cbn [out_failbit out_path out_pending fault set_disk disk]. rewrite Hw.
    rewrite lookup_insert_eq. cbn [set_disk disk st_data st_mode clock app].
    change (S_ISREG (Z.lor S_IFREG 420)) with true. cbn [set_disk disk].
    by rewrite insert_insert_eq.
Qed.

(** When the platform lets it, [Write] leaves at a path that was free or
    held a regular file an entry whose bytes are the buffer. *)
Lemma Write_creates_or_truncates path data os :
  fault os (sys_open_trunc path) = None →
  fault os (sys_write path) = None →
  (∀ ino, disk os !! path = Some ino → S_ISREG (st_mode ino) = true) →
  ∃ os', Sync.Write path data os = Returned tt os'
         ∧ (st_data <$> disk os' !! path) = Some data.
Proof.
  intros Hf Hw Hreg. eexists. split; [by apply Write_willing|].
  cbn [disk set_disk]. by rewrite lookup_insert_eq.
Qed.

(** C2, at the failing input: the platform refuses to open
    "/readonly/prefs.json" for writing ([EACCES]).  [Write] returns as if
    nothing had happened: it throws nothing, no entry appears at the
    path, and the adapter calls the callback with an empty error.  The
    sibling [Read] tests [file.fail()] and throws; [Write] has no such
    test. *)
Theorem Write_swallows_open_failure :
  fault example_os (sys_open_trunc "/readonly/prefs.json") = Some EACCES
  ∧ Sync.Write "/readonly/prefs.json" [x7b; x7d] example_os
    = Returned tt (set_errno EACCES example_os)
  ∧ disk (set_errno EACCES example_os) !! "/readonly/prefs.json" = None
  ∧ Async.calls (Async.Write (DefaultSyncImpl {| basePath := "" |})
                   "/readonly/prefs.json" [x7b; x7d] quiet_Callback example_os)
    = Some [call_Callback ""].
Proof. repeat split; reflexivity. Qed.

(** ** The asynchronous adapter *)

Section AdapterFacts.
Context {W : Type} (syncImpl : SyncImpl W).

Ltac adapter_unfold :=
  unfold Async.detached_thread, Async.invoke, Async.in_world, Cpp.try_catch, Cpp.zoom;
  cpp_unfold; cbv zeta;
  cbn [world invoked Async.record_call Async.set_world].

(** [Write], [Move] and [Remove] call the callback after the [try]
    statement: once, whatever the engine and the callback do. *)
Lemma Write_calls_once path data (callback : Async.Callback) (w : W) :
  defined (impl_Write syncImpl path data w) →
  (∀ error w', defined (callback error w')) →
  ∃ error,
    reported_error ("Unknown error while writing to " +:+ path)
      (impl_Write syncImpl path data w) = Some error
    ∧ Async.calls (Async.Write syncImpl path data callback w)
      = Some [call_Callback error].
Proof.
  intros Hd Hcb. unfold Async.Write, Async.Write_lambda. adapter_unfold.
  destruct (impl_Write syncImpl path data w) as [[] w'|[cls what|] w'|] eqn:E;
    [| | |done]; cbn [reported_error world invoked Async.record_call Async.set_world];
    eexists; (split; [reflexivity|]);
    match goal with |- context [callback ?e ?x] =>
      specialize (Hcb e x); destruct (callback e x); [done|done|by destruct Hcb] end.
Qed.

Lemma Move_calls_once fromPath toPath (callback : Async.Callback) (w : W) :
  defined (impl_Move syncImpl fromPath toPath w) →
  (∀ error w', defined (callback error w')) →
  ∃ error,
    reported_error ("Unknown error while moving " +:+ fromPath +:+ " to " +:+ toPath)
      (impl_Move syncImpl fromPath toPath w) = Some error
    ∧ Async.calls (Async.Move syncImpl fromPath toPath callback w)
      = Some [call_Callback error].
Proof.
  intros Hd Hcb. unfold Async.Move, Async.Move_lambda. adapter_unfold.
  destruct (impl_Move syncImpl fromPath toPath w) as [[] w'|[cls what|] w'|] eqn:E;
    [| | |done]; cbn [reported_error world invoked Async.record_call Async.set_world];
    eexists; (split; [reflexivity|]);
    match goal with |- context [callback ?e ?x] =>
      specialize (Hcb e x); destruct (callback e x); [done|done|by destruct Hcb] end.
Qed.

Lemma Remove_calls_once path (callback : Async.Callback) (w : W) :
  defined (impl_Remove syncImpl path w) →
  (∀ error w', defined (callback error w')) →
  ∃ error,
    reported_error ("Unknown error while removing " +:+ path)
      (impl_Remove syncImpl path w) = Some error
    ∧ Async.calls (Async.Remove syncImpl path callback w)
      = Some [call_Callback error].
Proof.
  intros Hd Hcb. unfold Async.Remove, Async.Remove_lambda. adapter_unfold.
  destruct (impl_Remove syncImpl path w) as [[] w'|[cls what|] w'|] eqn:E;
    [| | |done]; cbn [reported_error world invoked Async.record_call Async.set_world];
    eexists; (split; [reflexivity|]);
    match goal with |- context [callback ?e ?x] =>
      specialize (Hcb e x); destruct (callback e x); [done|done|by destruct Hcb] end.
Qed.

(** [Read]: when the engine throws, the one call is the one after the
    handlers, with an empty buffer and the error text. *)
Lemma Read_failure_calls_once path (callback : Async.ReadCallback) (w w' : W) x :
  impl_Read syncImpl path w = Threw x w' →
  (∀ data error w'', defined (callback data error w'')) →
  ∃ error,
    reported_error (A:=IOBuffer) ("Unknown error while reading from " +:+ path)
      (Threw x w') = Some error
    ∧ Async.calls (Async.Read syncImpl path callback w)
      = Some [call_ReadCallback [] error].
Proof.
  intros He Hcb. unfold Async.Read, Async.Read_lambda. adapter_unfold. rewrite He.
  destruct x as [cls what|]; cbn [reported_error world invoked Async.record_call Async.set_world];
    eexists; (split; [reflexivity|]);
    match goal with |- context [callback ?d ?e ?x] =>
      specialize (Hcb d e x); destruct (callback d e x); [done|done|by destruct Hcb] end.
Qed.

(** [Read]: when the engine returns, the callback is called with the
    data inside the [try] block.  If that call returns, it was the only
    one. *)
Lemma Read_success_calls_once path (callback : Async.ReadCallback) (w w' w'' : W) data :
  impl_Read syncImpl path w = Returned data w' →
  callback data "" w' = Returned tt w'' →
  Async.calls (Async.Read syncImpl path callback w)
  = Some [call_ReadCallback data ""].
Proof.
  intros He Hcb. unfold Async.Read, Async.Read_lambda. adapter_unfold.
  rewrite He. cbn [world invoked Async.record_call Async.set_world]. by rewrite Hcb.
Qed.

(** If it throws, the handlers of the same [try] catch what the callback
    threw, and the callback is called a second time. *)
Lemma Read_success_calls_twice path (callback : Async.ReadCallback) (w w' w'' : W) data x :
  impl_Read syncImpl path w = Returned data w' →
  callback data "" w' = Threw x w'' →
  (∀ data error w'', defined (callback data error w'')) →
  ∃ error,
    reported_error (A:=unit) ("Unknown error while reading from " +:+ path)
      (Threw x w'') = Some error
    ∧ Async.calls (Async.Read syncImpl path callback w)
      = Some [call_ReadCallback data ""; call_ReadCallback [] error].
Proof.
  intros He Hthrow Hcb. unfold Async.Read, Async.Read_lambda. adapter_unfold.
  rewrite He. cbn [world invoked Async.record_call Async.set_world]. rewrite Hthrow.
  destruct x as [cls what|]; cbn [reported_error world invoked Async.record_call Async.set_world];
    eexists; (split; [reflexivity|]);
    match goal with |- context [callback ?d ?e ?x] =>
      specialize (Hcb d e x); destruct (callback d e x); [done|done|by destruct Hcb] end.
Qed.

Lemma Stat_failure_calls_once path (callback : Async.StatCallback) (w w' : W) x :
  impl_Stat syncImpl path w = Threw x w' →
  (∀ result error w'', defined (callback result error w'')) →
  ∃ error,
    reported_error (A:=StatResult) ("Unknown error while calling stat on " +:+ path)
      (Threw x w') = Some error
    ∧ Async.calls (Async.Stat syncImpl path callback w)
      = Some [call_StatCallback StatResult_default error].
Proof.
  intros He Hcb. unfold Async.Stat, Async.Stat_lambda. adapter_unfold. rewrite He.
  destruct x as [cls what|]; cbn [reported_error world invoked Async.record_call Async.set_world];
    eexists; (split; [reflexivity|]);
    match goal with |- context [callback ?d ?e ?x] =>
      specialize (Hcb d e x); destruct (callback d e x); [done|done|by destruct Hcb] end.
Qed.

Lemma Stat_success_calls_once path (callback : Async.StatCallback) (w w' w'' : W) result :
  impl_Stat syncImpl path w = Returned result w' →
  callback result "" w' = Returned tt w'' →
  Async.calls (Async.Stat syncImpl path callback w)
  = Some [call_StatCallback result ""].
Proof.
  intros He Hcb. unfold Async.Stat, Async.Stat_lambda. adapter_unfold.
  rewrite He. cbn [world invoked Async.record_call Async.set_world]. by rewrite Hcb.
Qed.

Lemma Stat_success_calls_twice path (callback : Async.StatCallback) (w w' w'' : W) result x :
  impl_Stat syncImpl path w = Returned result w' →
  callback result "" w' = Threw x w'' →
  (∀ result error w'', defined (callback result error w'')) →
  ∃ error,
    reported_error (A:=unit) ("Unknown error while calling stat on " +:+ path)
      (Threw x w'') = Some error
    ∧ Async.calls (Async.Stat syncImpl path callback w)
      = Some [call_StatCallback result ""; call_StatCallback StatResult_default error].
Proof.
  intros He Hthrow Hcb. unfold Async.Stat, Async.Stat_lambda. adapter_unfold.
  rewrite He. cbn [world invoked Async.record_call Async.set_world]. rewrite Hthrow.
  destruct x as [cls what|]; cbn [reported_error world invoked Async.record_call Async.set_world];
    eexists; (split; [reflexivity|]);
    match goal with |- context [callback ?d ?e ?x] =>
      specialize (Hcb d e x); destruct (callback d e x); [done|done|by destruct Hcb] end.
Qed.

End AdapterFacts.

(** With the engine of the sources and a callback that returns, [Read]
    calls the callback once: with the file's bytes and an empty error
    when the engine returned, with an empty buffer and a non-empty error
    when it threw. *)
Lemma Read_default_engine_once this path (callback : Async.ReadCallback) (os : OS) :
  (∀ data error w, ∃ w', callback data error w = Returned tt w') →
  ∃ data error,
    Async.calls (Async.Read (DefaultSyncImpl this) path callback os)
    = Some [call_ReadCallback data error]
    ∧ ((error = "" ∧ ∃ os', Sync.Read path os = Returned data os')
       ∨ (error ≠ "" ∧ data = [] ∧ ∃ x os', Sync.Read path os = Threw x os')).
Proof.
  intros Hcb.
  assert (Hdef : ∀ data error w, defined (callback data error w)).
  { intros data error w. destruct (Hcb data error w) as [w' ->]. done. }
  destruct (ifstream_open_returns path os) as (file & os' & Hopen & Hpos).
  pose proof (Read_after_open _ _ _ _ Hopen Hpos) as HRead.
  destruct (in_failbit file); [|destruct (decide _); [|destruct (decide _)]].
  1-3: destruct (Read_failure_calls_once (DefaultSyncImpl this) path callback os os' _
                   HRead Hdef) as (error & Herr & Hcalls);
       exists [], error; (split; [exact Hcalls|]); right;
       injection Herr as <-; (split; [|split; [done|by eexists _, _]]);
       try rewrite !append_cons; discriminate.
  destruct (Hcb (filled (Z.to_nat (in_end file)) (in_buf file)) "" os') as [w'' Hret].
  eexists _, "". split; [|left; split; [done|by eexists]].
  by eapply (Read_success_calls_once (DefaultSyncImpl this)).
Qed.

(** When the engine throws a value that is no [std::exception], every
    operation calls its callback once, with the default result and the
    operation's own fallback text. *)
Example foreign_throw_falls_back :
  Async.calls (Async.Read foreign_engine "a" quiet_ReadCallback example_os)
  = Some [call_ReadCallback [] "Unknown error while reading from a"]
  ∧ Async.calls (Async.Write foreign_engine "a" [x00] quiet_Callback example_os)
    = Some [call_Callback "Unknown error while writing to a"]
  ∧ Async.calls (Async.Move foreign_engine "a" "b" quiet_Callback example_os)
    = Some [call_Callback "Unknown error while moving a to b"]
  ∧ Async.calls (Async.Remove foreign_engine "a" quiet_Callback example_os)
    = Some [call_Callback "Unknown error while removing a"]
  ∧ Async.calls (Async.Stat foreign_engine "a" quiet_StatCallback example_os)
    = Some [call_StatCallback StatResult_default "Unknown error while calling stat on a"].
Proof. repeat split; reflexivity. Qed.

(** C1, at the failing input: the file is there, [Read] succeeds, and the
    callback throws a [std::runtime_error] when it is handed the data.
    The call sits inside the [try] block, so the handler meant for the
    engine catches the callback's exception and the callback is called
    again, with an empty buffer and the caught text: two calls, the
    first a success and the second a failure.  [Stat] does the same.
    [Write], whose callback call comes after the [try] statement, calls
    the same kind of callback once. *)
Theorem Read_callback_called_twice :
  Sync.Read "/data/patterns.ini" example_os = Returned [x41; x42; x50] example_os
  ∧ Async.calls (Async.Read (DefaultSyncImpl {| basePath := "" |})
                   "/data/patterns.ini" throwing_ReadCallback example_os)
    = Some [call_ReadCallback [x41; x42; x50] ""; call_ReadCallback [] "boom"]
  ∧ Async.calls (Async.Stat (DefaultSyncImpl {| basePath := "" |})
                   "/data/patterns.ini" throwing_StatCallback example_os)
    = Some [call_StatCallback
              {| exists_ := true; isFile := true; isDirectory := false;
                 lastModified := 1500000000250 |} "";
            call_StatCallback StatResult_default "boom"]
  ∧ Async.calls (Async.Write (DefaultSyncImpl {| basePath := "" |})
                   "/data/patterns.ini" [x41] throwing_Callback example_os)
    = Some [call_Callback ""].
Proof. repeat split; reflexivity. Qed.

(** ** Ownership and callbacks *)

Lemma expired_false target h :
  Memory.expired target h = false ↔
  ∃ c, counts h !! target = Some c ∧ use_count c ≠ 0.
Proof.
  unfold Memory.expired. destruct (counts h !! target) as [c|].
  - rewrite bool_decide_eq_false. split; [by exists c|]. by intros (? & [= <-] & ?).
  - split; [done|]. by intros (? & ? & _).
Qed.

Lemma lock_alive target h :
  Memory.expired target h = false →
  Memory.lock target h
  = Returned (Some target) (Memory.set_counts (alter Memory.add_use target) h).
Proof. intros H. unfold Memory.lock. cpp_unfold. by rewrite H. Qed.

Lemma lock_expired target h :
  Memory.expired target h = true → Memory.lock target h = Returned None h.
Proof. intros H. unfold Memory.lock. cpp_unfold. by rewrite H. Qed.

Lemma shared_from_this_alive this h :
  Memory.expired this h = false →
  Memory.shared_from_this this h
  = Returned this (Memory.set_counts (alter Memory.add_use this) h).
Proof. intros H. unfold Memory.shared_from_this. cpp_unfold. by rewrite lock_alive. Qed.

(** A temporary owner comes and goes without a trace. *)
Lemma release_after_add_use p h c :
  counts h !! p = Some c → use_count c ≠ 0 →
  Memory.release p (Memory.set_counts (alter Memory.add_use p) h) = Returned tt h.
Proof.
  intros Hc Hu. unfold Memory.release. cpp_unfold.
  cbn [counts Memory.set_counts]. rewrite lookup_alter_eq, Hc. cbn [fmap option_fmap option_map].
  rewrite bool_decide_eq_false_2 by (cbn; lia).
  f_equal. destruct h as [o cs b]. unfold Memory.set_counts. cbn in *. f_equal.
  apply map_eq. intros i. destruct (decide (i = p)) as [->|Hne].
  - rewrite lookup_insert_eq, Hc. f_equal. destruct c as [u wk]. cbn in *.
    unfold Memory.drop_use, Memory.add_use. cbn. done.
  - by rewrite lookup_insert_ne, lookup_alter_ne.
Qed.

(** [NewCallback] on an engine that has an owner: the function it
    returns carries the address of a fresh weak reference to the engine;
    the engine gains that weak reference and one owner, the returned
    [JsValue]. *)
Lemma NewCallback_registers {InvocationCallback : Type} this
    (callback : InvocationCallback) h c :
  counts h !! this = Some c → use_count c ≠ 0 →
  ∃ h',
    Engine.NewCallback this callback h
    = Returned {| jsEngine := this;
                  value := {| fn_callback := callback; fn_data := brk h |} |} h'
    ∧ objects h' = <[brk h := obj_weak_ptr this]> (objects h)
    ∧ counts h' !! this
      = Some {| use_count := S (use_count c); weak_count := S (weak_count c) |}.
Proof.
  intros Hc Hu.
  assert (He : Memory.expired this h = false) by (apply expired_false; eauto).
  unfold Engine.NewCallback.
  unfold mbind, M_bind, Cpp.bind at 1.
  rewrite (shared_from_this_alive _ _ He).
  unfold Cpp.bind at 1. rewrite (release_after_add_use _ _ _ Hc Hu).
  unfold Cpp.bind at 1. rewrite (shared_from_this_alive _ _ He).
  unfold Cpp.bind at 1.
  unfold Memory.new_weak_ptr, Memory.new. cpp_unfold.
  cbn [objects counts brk Memory.set_counts].
  unfold Memory.release at 1. cpp_unfold. cbn [objects counts brk Memory.set_counts].
  rewrite !lookup_alter_eq, Hc. cbn [fmap option_fmap option_map].
  rewrite bool_decide_eq_false_2 by (cbn; lia).
  unfold Memory.shared_from_this, Memory.lock, Memory.expired. cpp_unfold.
  cbn [objects counts brk Memory.set_counts]. rewrite lookup_insert_eq.
  rewrite bool_decide_eq_false_2 by (cbn; lia).
  eexists. split; [reflexivity|]. cbn [objects counts brk Memory.set_counts].
  split; [reflexivity|].
  rewrite lookup_alter_eq, lookup_insert_eq. cbn. done.
Qed.

Lemma FromArguments_expired arguments target h :
  objects h !! Data arguments = Some (obj_weak_ptr target) →
  Memory.expired target h = true →
  Engine.FromArguments arguments h = Threw (std_exception runtime_error oops) h.
Proof.
  intros Hd He. unfold Engine.FromArguments. cpp_unfold.
  rewrite Hd. by rewrite (lock_expired _ _ He).
Qed.

Lemma FromArguments_alive arguments target h :
  objects h !! Data arguments = Some (obj_weak_ptr target) →
  Memory.expired target h = false →
  Engine.FromArguments arguments h
  = Returned target (Memory.set_counts (alter Memory.add_use target) h).
Proof.
  intros Hd He. unfold Engine.FromArguments. cpp_unfold.
  rewrite Hd. by rewrite (lock_alive _ _ He).
Qed.

(** C6: [NewCallback] stores with the function a weak reference to the
    engine (the engine's weak count goes up by one; its one new owner is
    the returned value).  Whenever script code later calls the function,
    [FromArguments] locks that reference first.  If the engine has been
    destroyed the lock gives null and [FromArguments] throws the
    "engine is gone" [std::runtime_error], with the heap exactly as it
    found it, whatever is or is not stored at the engine's old address.
    Only when the lock succeeds does the caller get the engine, and one
    more owner is counted. *)
Theorem FromArguments_fails_when_engine_gone {InvocationCallback : Type}
    (this : addr) (callback : InvocationCallback) (h : Heap) (c : ref_counts) :
  counts h !! this = Some c → use_count c ≠ 0 →
  ∃ data h1,
    Engine.NewCallback this callback h
    = Returned {| jsEngine := this;
                  value := {| fn_callback := callback; fn_data := data |} |} h1
    ∧ objects h1 !! data = Some (obj_weak_ptr this)
    ∧ counts h1 !! this
      = Some {| use_count := S (use_count c); weak_count := S (weak_count c) |}
    ∧ ∀ h2 : Heap,
        objects h2 !! data = Some (obj_weak_ptr this) →
        (Memory.expired this h2 = true →
         Engine.FromArguments {| Data := data |} h2
         = Threw (std_exception runtime_error oops) h2)
        ∧ (Memory.expired this h2 = false →
           Engine.FromArguments {| Data := data |} h2
           = Returned this (Memory.set_counts (alter Memory.add_use this) h2)).
Proof.
  intros Hc Hu.
  destruct (NewCallback_registers this callback h c Hc Hu) as (h1 & Hcall & Hobj & Hcnt).
  exists (brk h), h1. split; [exact Hcall|].
  split; [by rewrite Hobj, lookup_insert_eq|]. split; [exact Hcnt|].
  intros h2 Hd. split; intros He.
  - by apply (FromArguments_expired _ this).
  - by apply (FromArguments_alive _ this).
Qed.

Lemma FromArguments_fails_when_engine_gone_witness :
  ∃ data h1,
    Engine.NewCallback 1 "ReadCallback" example_heap
    = Returned {| jsEngine := 1;
                  value := {| fn_callback := "ReadCallback"; fn_data := data |} |} h1
    ∧ Engine.FromArguments {| Data := data |} heap_after_teardown
      = Threw (std_exception runtime_error
                 "Oops, our JsEngine is gone, how did that happen?")
              heap_after_teardown
    ∧ Engine.FromArguments {| Data := data |} h1
      = Returned 1 (Memory.set_counts (alter Memory.add_use 1) h1).
Proof.
  destruct (FromArguments_fails_when_engine_gone 1 "ReadCallback" example_heap
              {| use_count := 1; weak_count := 0 |} eq_refl ltac:(discriminate))
    as (data & h1 & Hcall & Hobj & Hcnt & Hinvoke).
  exists data, h1. split; [exact Hcall|].
  assert (Hdata : data = 2).
  { cut (Some data = Some 2); [by intros [=]|].
    change (Some data)
      with (match Returned (S:=Heap) {| jsEngine := 1;
                     value := {| fn_callback := "ReadCallback"; fn_data := data |} |} h1
            with Returned v _ => Some (fn_data (value v)) | _ => None end).
    rewrite <- Hcall. reflexivity. }
  split.
  - apply (Hinvoke heap_after_teardown); [by rewrite Hdata|reflexivity].
  - apply (Hinvoke h1); [exact Hobj|].
    apply expired_false. eexists. split; [exact Hcnt|discriminate].
Defined.

(** The torn-down heap of the examples is what the model reaches: the
    callback is registered, then the returned value and the host let go
    of the engine. *)
Example teardown_reached :
  match Engine.NewCallback 1 "ReadCallback" example_heap with
  | Returned _ h1 =>
      match Memory.release 1 h1 with
      | Returned _ h2 => Memory.release 1 h2 = Returned tt heap_after_teardown
      | _ => False
      end
  | _ => False
  end.
Proof. vm_compute. reflexivity. Qed.

(** ** Collaborators *)

Lemma self_engine this e h :
  objects h !! this = Some (obj_JsEngine e) → Engine.self this h = Returned e h.
Proof. intros H. unfold Engine.self. cpp_unfold. by rewrite H. Qed.

Ltac slot_unfold :=
  unfold Engine.store, Memory.new, Memory.set_objects; cpp_unfold;
  cbn [objects counts brk fileSystem webRequest errorCallback].

Ltac slot_getter Hobj Hfresh :=
  cpp_unfold; rewrite (self_engine _ _ _ Hobj);
  cbn [fileSystem webRequest errorCallback with_fileSystem with_webRequest
       with_errorCallback];
  slot_unfold.

(** C9: for the engine stored at [this] (an address handed out before,
    so below [brk]), each of the three slots keeps its contract: the
    getter of an empty slot makes the default collaborator at a fresh
    address, stores it in the slot and returns it, and returns the same
    pointer from then on; the getter of a filled slot returns what is
    stored and changes nothing; the setter throws a [std::runtime_error]
    on null and leaves the heap unchanged; and it stores any other
    pointer, which the getter then returns. *)
Theorem collaborator_slots (this : addr) (e : JsEngine) (h : Heap) :
  objects h !! this = Some (obj_JsEngine e) →
  this < brk h →
  slot_contract Engine.GetFileSystem Engine.SetFileSystem
    fileSystem with_fileSystem obj_DefaultFileSystem
    "FileSystem cannot be null" this e h
  ∧ slot_contract Engine.GetWebRequest Engine.SetWebRequest
      webRequest with_webRequest obj_DefaultWebRequest
      "WebRequest cannot be null" this e h
  ∧ slot_contract Engine.GetErrorCallback Engine.SetErrorCallback
      errorCallback with_errorCallback obj_DefaultErrorCallback
      "ErrorCallback cannot be null" this e h.
Proof.
  intros Hobj Hfresh.
  assert (Hne : brk h ≠ this) by lia.
  split; [|split]; unfold slot_contract; (split; [|split; [|split]]).
  - intros Hnone. unfold Engine.GetFileSystem. slot_getter Hobj Hfresh.
    rewrite Hnone. slot_unfold. eexists. split; [reflexivity|].
    cbn [objects]. rewrite lookup_insert_ne, !lookup_insert_eq by done.
    split; [done|]. split; [done|].
    unfold Engine.self. cpp_unfold. cbn [objects]. by rewrite lookup_insert_eq.
  - intros p Hp. unfold Engine.GetFileSystem. slot_getter Hobj Hfresh. by rewrite Hp.
  - reflexivity.
  - intros p. unfold Engine.SetFileSystem, Engine.GetFileSystem. slot_getter Hobj Hfresh.
    eexists. split; [reflexivity|]. cbn [objects]. rewrite lookup_insert_eq.
    split; [done|]. unfold Engine.self. cpp_unfold. cbn [objects].
    by rewrite lookup_insert_eq.
  - intros Hnone. unfold Engine.GetWebRequest. slot_getter Hobj Hfresh.
    rewrite Hnone. slot_unfold. eexists. split; [reflexivity|].
    cbn [objects]. rewrite lookup_insert_ne, !lookup_insert_eq by done.
    split; [done|]. split; [done|].
    unfold Engine.self. cpp_unfold. cbn [objects]. by rewrite lookup_insert_eq.
  - intros p Hp. unfold Engine.GetWebRequest. slot_getter Hobj Hfresh. by rewrite Hp.
  - reflexivity.
  - intros p. unfold Engine.SetWebRequest, Engine.GetWebRequest. slot_getter Hobj Hfresh.
    eexists. split; [reflexivity|]. cbn [objects]. rewrite lookup_insert_eq.
    split; [done|]. unfold Engine.self. cpp_unfold. cbn [objects].
    by rewrite lookup_insert_eq.
  - intros Hnone. unfold Engine.GetErrorCallback. slot_getter Hobj Hfresh.
    rewrite Hnone. slot_unfold. eexists. split; [reflexivity|].
    cbn [objects]. rewrite lookup_insert_ne, !lookup_insert_eq by done.
    split; [done|]. split; [done|].
    unfold Engine.self. cpp_unfold. cbn [objects]. by rewrite lookup_insert_eq.
  - intros p Hp. unfold Engine.GetErrorCallback. slot_getter Hobj Hfresh. by rewrite Hp.
  - reflexivity.
  - intros p. unfold Engine.SetErrorCallback, Engine.GetErrorCallback.
    slot_getter Hobj Hfresh.
    eexists. split; [reflexivity|]. cbn [objects]. rewrite lookup_insert_eq.
    split; [done|]. unfold Engine.self. cpp_unfold. cbn [objects].
    by rewrite lookup_insert_eq.
Qed.

Lemma collaborator_slots_witness :
  objects example_heap !! 1 = Some (obj_JsEngine example_engine)
  ∧ 1 < brk example_heap
  ∧ slot_contract Engine.GetFileSystem Engine.SetFileSystem
      fileSystem with_fileSystem obj_DefaultFileSystem
      "FileSystem cannot be null" 1 example_engine example_heap.
Proof.
  split; [reflexivity|]. split; [cbn; lia|].
  apply (collaborator_slots 1 example_engine example_heap); [reflexivity|cbn; lia].
Defined.

(** The getters and setters on the example heap. *)
Example lazy_default_then_stored :
  match Engine.GetFileSystem 1 example_heap with
  | Returned first h' =>
      first = Some 2
      ∧ Engine.GetFileSystem 1 h' = Returned (Some 2) h'
      ∧ Engine.SetFileSystem 1 None h'
        = Threw (std_exception runtime_error "FileSystem cannot be null") h'
  | _ => False
  end.
Proof. vm_compute. repeat split; reflexivity. Qed.

(** ** [Evaluate] *)

Section EvaluateFacts.
Context {Isolate Value Script : Type}.
Context (Utf8Value : Value → string).
Context (Compile : string → option string → Isolate
                   → (Script + V8.Caught Value) * Isolate).
Context (Run : Script → Isolate → (Value + V8.Caught Value) * Isolate).

Abbreviation World := (V8.World Isolate Value Script).
Abbreviation Evaluate := (V8.Evaluate Isolate Value Script Utf8Value Compile Run).
Abbreviation ExceptionToString := (V8.ExceptionToString Value Utf8Value).

(** The script name [CompileScript] passes to V8: none for an empty file
    name. *)
Lemma CompileScript_name source filename (w : World) :
  V8.CompileScript Isolate Value Script Compile source filename w
  = V8.Script_Compile Isolate Value Script Compile (V8.c_str source)
      (if String.length filename =? 0 then None else Some (V8.c_str filename)) w.
Proof. unfold V8.CompileScript. by destruct (String.length filename =? 0). Qed.

(** How [Evaluate] ends, by what V8 answers. *)
Lemma Evaluate_by_cases (this : addr) (source filename : string) (w : World) :
  let name := if String.length filename =? 0 then None else Some (V8.c_str filename) in
  let compiling := [V8.call_Compile (V8.c_str source) name] in
  match Compile (V8.c_str source) name (V8.isolate w) with
  | (inr c, i) =>
      Evaluate this source filename w
      = Threw (std_exception JsError
                 (ExceptionToString (V8.Exception c) (V8.caught_Message c)))
              {| V8.isolate := i; V8.tryCatch := Some c;
                 V8.api_calls := V8.api_calls w ++ compiling |}
      ∧ V8.ran compiling = false
  | (inl script, i) =>
      match Run script i with
      | (inr c, i') =>
          Evaluate this source filename w
          = Threw (std_exception JsError
                     (ExceptionToString (V8.Exception c) (V8.caught_Message c)))
                  {| V8.isolate := i'; V8.tryCatch := Some c;
                     V8.api_calls := (V8.api_calls w ++ compiling)
                                     ++ [V8.call_Run script] |}
      | (inl v, i') =>
          Evaluate this source filename w
          = Returned {| jsEngine := this; value := Some v |}
                     {| V8.isolate := i'; V8.tryCatch := None;
                        V8.api_calls := (V8.api_calls w ++ compiling)
                                        ++ [V8.call_Run script] |}
      end
  end.
Proof.
  intros name compiling.
  assert (Hstart : ∀ k : M World (JsValue (option Value)),
            (V8.TryCatch_new Isolate Value Script ≫= λ _, k) w
            = k {| V8.isolate := V8.isolate w; V8.tryCatch := None;
                   V8.api_calls := V8.api_calls w |}) by reflexivity.
  destruct (Compile (V8.c_str source) name (V8.isolate w)) as [[script|c] i] eqn:Hc.
  - destruct (Run script i) as [[v|c] i'] eqn:Hr;
      unfold V8.Evaluate; rewrite Hstart; cpp_unfold;
      rewrite CompileScript_name; fold name;
      unfold V8.Script_Compile, V8.api; cpp_unfold;
      cbn [V8.isolate V8.api_calls V8.tryCatch]; rewrite Hc;
      unfold V8.CheckTryCatch at 1; cpp_unfold; cbn [V8.tryCatch];
      unfold V8.Script_Run, V8.api; cpp_unfold;
      cbn [V8.isolate V8.api_calls V8.tryCatch]; rewrite Hr; reflexivity.
  - split; [|reflexivity].
    unfold V8.Evaluate. rewrite Hstart. cpp_unfold.
    rewrite CompileScript_name. fold name.
    unfold V8.Script_Compile, V8.api. cpp_unfold.
    cbn [V8.isolate V8.api_calls V8.tryCatch]. rewrite Hc. reflexivity.
Qed.




Lemma has_NUL_spec (s : string) :
  has_NUL s = true ↔ ∃ before rest, s = before +:+ String Ascii.zero rest.
Proof.
  split.
  - induction s as [|c s IH]; [done|]. cbn [has_NUL].
    destruct (Ascii.eqb c Ascii.zero) eqn:Hc.
    + apply Ascii.eqb_eq in Hc as ->. intros _. by exists "", s.
    + intros (before & rest & ->)%IH. exists (String c before), rest.
      by rewrite append_cons.
  - intros (before & rest & ->). induction before as [|c before IH].
    + done.
    + rewrite append_cons. cbn [has_NUL]. rewrite IH. apply orb_true_r.
Qed.



(** When V8 names a script in its messages by the name the script was
    compiled under, a compile error in a labelled source reads: the
    thrown value's text, " at ", the label, ":", the line. *)
Lemma Evaluate_compile_error_names_label (this : addr) (source filename : string)
    (w : World) c i m :
  (∀ src n j c' j' m',
     Compile src (Some n) j = (inr c', j') → V8.caught_Message c' = Some m' →
     Utf8Value (V8.GetScriptResourceName m') = n) →
  filename ≠ "" → V8.c_str filename = filename →
  Compile (V8.c_str source) (Some filename) (V8.isolate w) = (inr c, i) →
  V8.caught_Message c = Some m →
  ∃ w', Evaluate this source filename w
        = Threw (std_exception JsError
                   (Utf8Value (V8.Exception c) +:+ " at " +:+ filename
                    +:+ ":" +:+ pretty (V8.GetLineNumber m))) w'
        ∧ V8.ran (V8.api_calls w') = V8.ran (V8.api_calls w).
Proof.
  intros Hname Hne Hstr Hc Hm.
  pose proof (Evaluate_by_cases this source filename w) as H.
  cbv zeta in H. destruct filename as [|a rest]; [done|].
  cbn [String.length Nat.eqb] in H. rewrite Hstr, Hc in H. destruct H as [H _].
  eexists. split.
  - rewrite H. unfold V8.ExceptionToString. rewrite Hm.
    by rewrite (Hname _ _ _ _ _ _ Hc Hm).
  - cbn [V8.api_calls]. unfold V8.ran. rewrite existsb_app. cbn. by rewrite orb_false_r.
Qed.

End EvaluateFacts.



(** [Evaluate] on the stand-in engine: a source that does not compile,
    a script that throws without a message, and one that runs. *)
Example Evaluate_on_toy_engine :
  V8.Evaluate unit string string id toy_Compile toy_Run 1 "var x = ;" "filters.js" toy_world
  = Threw (std_exception JsError "SyntaxError: Unexpected token ; at filters.js:1")
          {| V8.isolate := tt;
             V8.tryCatch :=
               Some {| V8.Exception := "SyntaxError: Unexpected token ;";
                       V8.caught_Message :=
                         Some {| V8.GetScriptResourceName := "filters.js";
                                 V8.GetLineNumber := 1 |} |};
             V8.api_calls := [V8.call_Compile "var x = ;" (Some "filters.js")] |}
  ∧ V8.Evaluate unit string string id toy_Compile toy_Run 1 "throw 'no';" "" toy_world
    = Threw (std_exception JsError "no")
            {| V8.isolate := tt;
               V8.tryCatch := Some {| V8.Exception := "no"; V8.caught_Message := None |};
               V8.api_calls := [V8.call_Compile "throw 'no';" None;
                                V8.call_Run "throw 'no';"] |}
  ∧ V8.Evaluate unit string string id toy_Compile toy_Run 1 "6 * 7" "" toy_world
    = Returned {| jsEngine := 1; value := Some "42" |}
               {| V8.isolate := tt; V8.tryCatch := None;
                  V8.api_calls := [V8.call_Compile "6 * 7" None; V8.call_Run "6 * 7"] |}.
Proof. repeat split; vm_compute; reflexivity. Qed.

(** * Further properties of the code *)

(** ** [Move] and [Remove] *)

Lemma rename_by_cases oldpath newpath os :
  rename oldpath newpath os =
    match fault os (sys_rename oldpath newpath) with
    | Some e => Returned (-1)%Z (set_errno e os)
    | None =>
        match disk os !! oldpath with
        | None => Returned (-1)%Z (set_errno ENOENT os)
        | Some ino =>
            Returned 0%Z (set_disk (<[newpath := ino]> (delete oldpath (disk os))) os)
        end
    end.
Proof.
  unfold rename, fail_with. cpp_unfold.
  destruct (fault os _); [done|]. by destruct (disk os !! oldpath).
Qed.

Lemma remove_by_cases path os :
  remove path os =
    match fault os (sys_remove path) with
    | Some e => Returned (-1)%Z (set_errno e os)
    | None =>
        match disk os !! path with
        | None => Returned (-1)%Z (set_errno ENOENT os)
        | Some _ => Returned 0%Z (set_disk (delete path (disk os)) os)
        end
    end.
Proof.
  unfold remove, fail_with. cpp_unfold.
  destruct (fault os _); [done|]. by destruct (disk os !! path).
Qed.

Lemma Move_after_rename fromPath toPath os r os' :
  rename fromPath toPath os = Returned r os' →
  Sync.Move fromPath toPath os =
    if decide (r ≠ 0%Z)
    then Threw (std_exception RuntimeErrorWithErrno
                  (("Failed to move " +:+ fromPath +:+ " to " +:+ toPath)
                   +:+ " (" +:+ strerror os' (errno os') +:+ ")")) os'
    else Returned tt os'.
Proof.
  intros H. unfold Sync.Move, NormalizePath, throw_RuntimeErrorWithErrno. cpp_unfold.
  rewrite H. by destruct (decide (r ≠ 0%Z)).
Qed.

Lemma Remove_after_remove path os r os' :
  remove path os = Returned r os' →
  Sync.Remove path os =
    if decide (r ≠ 0%Z)
    then Threw (std_exception RuntimeErrorWithErrno
                  (("Failed to remove " +:+ path)
                   +:+ " (" +:+ strerror os' (errno os') +:+ ")")) os'
    else Returned tt os'.
Proof.
  intros H. unfold Sync.Remove, NormalizePath, throw_RuntimeErrorWithErrno. cpp_unfold.
  rewrite H. by destruct (decide (r ≠ 0%Z)).
Qed.

Lemma Move_present fromPath toPath os ino :
  fault os (sys_rename fromPath toPath) = None → disk os !! fromPath = Some ino →
  Sync.Move fromPath toPath os
  = Returned tt (set_disk (<[toPath := ino]> (delete fromPath (disk os))) os).
Proof.
  intros Hf Hd. erewrite Move_after_rename; [|rewrite rename_by_cases, Hf, Hd; reflexivity].
  done.
Qed.






(** ** [Write], [Read] and [Stat] together *)

Lemma Read_stored path os ino data :
  fault os (sys_open_rdonly path) = None → disk os !! path = Some ino →
  S_ISREG (st_mode ino) = true →
  st_data ino = data → (Z.of_nat (length data) ≤ memory os)%Z →
  Sync.Read path os = Returned data os.
Proof. intros Hf Hd Hreg <- Hmem. by apply Read_present. Qed.

Lemma written_mode_regular (o : option inode) :
  (∀ ino, o = Some ino → S_ISREG (st_mode ino) = true) →
  S_ISREG (match o with Some ino => st_mode ino | None => Z.lor S_IFREG 420 end) = true.
Proof. destruct o as [ino|]; [by intros H; apply H|done]. Qed.

(** X3: what [Write] has written, [Read] reads back.  On a path that is
    free or holds a regular file, when the platform lets the path be
    opened both ways, [Write] followed by [Read] returns exactly the
    buffer (empty or not, as long as there is memory for it), whatever
    was in the file before; and a second [Write] replaces the first. *)
Theorem Write_then_Read (path : string) (data : IOBuffer) (os : OS) :
  fault os (sys_open_trunc path) = None →
  fault os (sys_write path) = None →
  fault os (sys_open_rdonly path) = None →
  (∀ ino, disk os !! path = Some ino → S_ISREG (st_mode ino) = true) →
  (Z.of_nat (length data) ≤ memory os)%Z →
  ∃ os',
    Sync.Write path data os = Returned tt os'
    ∧ Sync.Read path os' = Returned data os'
    ∧ ∀ again, (Z.of_nat (length again) ≤ memory os)%Z →
        ∃ os'',
          Sync.Write path again os' = Returned tt os''
          ∧ Sync.Read path os'' = Returned again os''.
Proof.
  intros Ht Hw Hr Hreg Hmem. eexists. split; [by apply Write_willing|].
  split.
  - eapply Read_stored; [done|cbn [disk set_disk]; apply lookup_insert_eq| |done|done].
    cbn [st_mode]. by apply written_mode_regular.
  - intros again Hagain. eexists. split.
    + apply Write_willing; [done|done|]. cbn [disk set_disk].
      rewrite lookup_insert_eq. intros ino [= <-]. cbn [st_mode].
      by apply written_mode_regular.
    + eapply Read_stored; [done|cbn [disk set_disk]; apply lookup_insert_eq| |done|done].
      cbn [st_mode disk set_disk]. rewrite lookup_insert_eq.
      by apply written_mode_regular.
Qed.

Lemma Write_then_Read_witness :
  ∃ os',
    Sync.Write "/data/patterns.ini" [] willing_os = Returned tt os'
    ∧ Sync.Read "/data/patterns.ini" os' = Returned [] os'
    ∧ ∀ again, (Z.of_nat (length again) ≤ memory willing_os)%Z →
        ∃ os'',
          Sync.Write "/data/patterns.ini" again os' = Returned tt os''
          ∧ Sync.Read "/data/patterns.ini" os'' = Returned again os''.
Proof.
  apply (Write_then_Read "/data/patterns.ini" [] willing_os);
    try reflexivity.
  - intros ino H. vm_compute in H. injection H as <-. reflexivity.
  - cbn. lia.
Defined.

(** [Stat] of an entry that is there. *)
Lemma Stat_present path os ino :
  fault os (sys_stat path) = None → disk os !! path = Some ino →
  Sync.Stat path os
  = Returned {| exists_ := true;
                isFile := S_ISREG (st_mode ino);
                isDirectory := S_ISDIR (st_mode ino);
                lastModified :=
                  (tv_sec (st_mtim ino) * 1000
                   + tv_nsec (st_mtim ino) `quot` 1000000)%Z |} os.
Proof.
  intros Hf Hd. unfold Sync.Stat, stat, NormalizePath. cpp_unfold.
  rewrite Hf, Hd. by rewrite decide_False by (intros H; by apply H).
Qed.




(** X6: the modification time [Stat] reports is the entry's [st_mtim]
    in whole milliseconds: for a time stamp with a nanosecond part below
    one second and seconds that fit (up to 9223372036854774),
    [lastModified] divided by 1000 is the seconds, its remainder is the
    nanoseconds divided by a million, and the value stays within
    [int64_t]. *)
Theorem Stat_lastModified_in_milliseconds (path : string) (os : OS) (ino : inode) :
  fault os (sys_stat path) = None →
  disk os !! path = Some ino →
  (0 ≤ tv_sec (st_mtim ino) ≤ 9223372036854774)%Z →
  (0 ≤ tv_nsec (st_mtim ino) < 1000000000)%Z →
  ∃ r, Sync.Stat path os = Returned r os
       ∧ (lastModified r `div` 1000 = tv_sec (st_mtim ino))%Z
       ∧ (lastModified r `mod` 1000 = tv_nsec (st_mtim ino) `div` 1000000)%Z
       ∧ (0 ≤ lastModified r < 2 ^ 63)%Z.
Proof.
  intros Hf Hd Hsec Hnsec. eexists. split; [by apply Stat_present|].
  cbn [lastModified].
  rewrite Z.quot_div_nonneg by lia.
  assert (Hms : (0 ≤ tv_nsec (st_mtim ino) `div` 1000000 < 1000)%Z).
  { split; [apply Z.div_pos; lia|apply Z.div_lt_upper_bound; lia]. }
  set (ms := (tv_nsec (st_mtim ino) `div` 1000000)%Z) in *.
  set (sec := tv_sec (st_mtim ino)) in *.
  split; [|split].
  - rewrite Z.div_add_l by lia. rewrite Z.div_small by lia. lia.
  - rewrite Z.add_comm, Z.mod_add by lia. apply Z.mod_small. lia.
  - lia.
Qed.

Lemma Stat_lastModified_in_milliseconds_witness :
  ∃ r, Sync.Stat "/data/patterns.ini" example_os = Returned r example_os
       ∧ (lastModified r `div` 1000 = 1500000000)%Z
       ∧ (lastModified r `mod` 1000 = 250000000 `div` 1000000)%Z
       ∧ (0 ≤ lastModified r < 2 ^ 63)%Z.
Proof.
  apply (Stat_lastModified_in_milliseconds "/data/patterns.ini" example_os
           (regular_file [x41; x42; x50]));
    [reflexivity|reflexivity|cbn; lia|cbn; lia].
Defined.



(** X8: after a [Move] of a regular file that returned, [Read] of the
    target returns the bytes that were at the source (where the kernel
    lets the target be opened and there is memory for them). *)
Theorem Move_then_Read (fromPath toPath : string) (os os' : OS) (ino : inode) :
  disk os !! fromPath = Some ino →
  S_ISREG (st_mode ino) = true →
  (Z.of_nat (length (st_data ino)) ≤ memory os)%Z →
  Sync.Move fromPath toPath os = Returned tt os' →
  fault os (sys_open_rdonly toPath) = None →
  Sync.Read toPath os' = Returned (st_data ino) os'.
Proof.
  intros Hd Hreg Hmem H Hr.
  destruct (fault os (sys_rename fromPath toPath)) as [e|] eqn:Hf.
  { erewrite Move_after_rename in H; [|rewrite rename_by_cases, Hf; reflexivity].
    by rewrite decide_True in H. }
  rewrite (Move_present _ _ _ _ Hf Hd) in H. injection H as <-.
  eapply Read_stored; [done| |done|done|done].
  cbn [disk set_disk]. apply lookup_insert_eq.
Qed.

Lemma Move_then_Read_witness :
  Sync.Read "/data/patterns.bak"
    (set_disk (<["/data/patterns.bak" := regular_file [x41; x42; x50]]>
                 (delete "/data/patterns.ini" (disk example_os))) example_os)
  = Returned (st_data (regular_file [x41; x42; x50]))
      (set_disk (<["/data/patterns.bak" := regular_file [x41; x42; x50]]>
                   (delete "/data/patterns.ini" (disk example_os))) example_os).
Proof.
  apply (Move_then_Read "/data/patterns.ini" "/data/patterns.bak" example_os _
           (regular_file [x41; x42; x50]) eq_refl eq_refl);
    [cbn; lia|reflexivity|reflexivity].
Defined.

(** X10: after a [Write] that the platform let through, on a path that
    was free or held a regular file, [Stat] of the path says that it
    exists and is a regular file and no directory, with the kernel's
    clock, in milliseconds, as its modification time (for a clock whose
    seconds are at most 9223372036854774 and whose nanoseconds are
    below one second, so that the arithmetic stays within [int64_t]). *)
Theorem Write_then_Stat (path : string) (data : IOBuffer) (os : OS) :
  fault os (sys_open_trunc path) = None →
  fault os (sys_write path) = None →
  fault os (sys_stat path) = None →
  (∀ ino, disk os !! path = Some ino → S_ISREG (st_mode ino) = true) →
  (0 ≤ tv_sec (clock os) ≤ 9223372036854774)%Z →
  (0 ≤ tv_nsec (clock os) < 1000000000)%Z →
  ∃ os' r,
    Sync.Write path data os = Returned tt os'
    ∧ Sync.Stat path os' = Returned r os'
    ∧ exists_ r = true
    ∧ isFile r = true
    ∧ isDirectory r = false
    ∧ lastModified r
      = (tv_sec (clock os) * 1000 + tv_nsec (clock os) `div` 1000000)%Z
    ∧ (0 ≤ lastModified r < 2 ^ 63)%Z.
Proof.
  intros Ht Hw Hs Hreg Hsec Hnsec. eexists _, _. split; [by apply Write_willing|].
  split; [apply Stat_present; [done|cbn [disk set_disk]; apply lookup_insert_eq]|].
  cbn [exists_ isDirectory isFile lastModified st_mode st_mtim].
  pose proof (written_mode_regular (disk os !! path) Hreg) as Hr.
  split; [done|]. split; [exact Hr|]. split.
  { pose proof (regular_or_directory
                  (match disk os !! path with
                   | Some ino => st_mode ino | None => Z.lor S_IFREG 420 end)) as H.
    rewrite Hr in H. exact H. }
  rewrite Z.quot_div_nonneg by lia. split; [done|].
  assert (0 ≤ tv_nsec (clock os) `div` 1000000 < 1000)%Z.
  { split; [apply Z.div_pos; lia|apply Z.div_lt_upper_bound; lia]. }
  lia.
Qed.

Lemma Write_then_Stat_witness :
  ∃ os' r,
    Sync.Write "/data/new.txt" [x41] willing_os = Returned tt os'
    ∧ Sync.Stat "/data/new.txt" os' = Returned r os'
    ∧ exists_ r = true
    ∧ isFile r = true
    ∧ isDirectory r = false
    ∧ lastModified r
      = (tv_sec (clock willing_os) * 1000
         + tv_nsec (clock willing_os) `div` 1000000)%Z
    ∧ (0 ≤ lastModified r < 2 ^ 63)%Z.
Proof.
  apply (Write_then_Stat "/data/new.txt" [x41] willing_os);
    try reflexivity.
  - intros ino H. vm_compute in H. discriminate H.
  - cbn. lia.
  - cbn. lia.
Defined.

(** ** The adapter, whatever the engine *)

Ltac thread_unfold :=
  unfold Async.detached_thread, Async.invoke, Async.in_world, Cpp.try_catch, Cpp.zoom;
  cpp_unfold; cbv zeta;
  cbn [world invoked Async.record_call Async.set_world].

Section AdapterMore.
Context {W : Type} (syncImpl : SyncImpl W).

(** X11: [Write], [Move] and [Remove] call the callback exactly once,
    whatever the engine does (return, throw a [std::exception], throw
    anything else) and whatever the callback does when called (return or
    throw): the call comes after the [try] statement.  The error handed
    over is empty when the engine returned, the exception's text when
    it threw one, and the operation's own "Unknown error" text
    otherwise. *)
Theorem callback_after_try_called_once (path toPath : string) (data : IOBuffer)
    (callback : Async.Callback) (w : W) :
  (∀ error w', defined (callback error w')) →
  (defined (impl_Write syncImpl path data w) →
   ∃ error,
     reported_error ("Unknown error while writing to " +:+ path)
       (impl_Write syncImpl path data w) = Some error
     ∧ Async.calls (Async.Write syncImpl path data callback w)
       = Some [call_Callback error])
  ∧ (defined (impl_Move syncImpl path toPath w) →
     ∃ error,
       reported_error ("Unknown error while moving " +:+ path +:+ " to " +:+ toPath)
         (impl_Move syncImpl path toPath w) = Some error
       ∧ Async.calls (Async.Move syncImpl path toPath callback w)
         = Some [call_Callback error])
  ∧ (defined (impl_Remove syncImpl path w) →
     ∃ error,
       reported_error ("Unknown error while removing " +:+ path)
         (impl_Remove syncImpl path w) = Some error
       ∧ Async.calls (Async.Remove syncImpl path callback w)
         = Some [call_Callback error]).
Proof.
  intros Hcb. split; [|split]; intros Hd.
  - by apply Write_calls_once.
  - by apply Move_calls_once.
  - by apply Remove_calls_once.
Qed.

(** X12: when the engine throws, [Read] and [Stat] call the callback
    exactly once, with the default result (an empty buffer, the default
    [StatResult]) and the error text, whatever the callback does then:
    that call comes after the handlers. *)
Theorem engine_failure_reported_once (path : string)
    (onRead : Async.ReadCallback) (onStat : Async.StatCallback) (w : W) :
  (∀ data error w', defined (onRead data error w')) →
  (∀ result error w', defined (onStat result error w')) →
  (∀ x w', impl_Read syncImpl path w = Threw x w' →
     ∃ error,
       reported_error (A:=IOBuffer) ("Unknown error while reading from " +:+ path)
         (Threw x w') = Some error
       ∧ Async.calls (Async.Read syncImpl path onRead w)
         = Some [call_ReadCallback [] error])
  ∧ (∀ x w', impl_Stat syncImpl path w = Threw x w' →
       ∃ error,
         reported_error (A:=StatResult) ("Unknown error while calling stat on " +:+ path)
           (Threw x w') = Some error
         ∧ Async.calls (Async.Stat syncImpl path onStat w)
           = Some [call_StatCallback StatResult_default error]).
Proof.
  intros HR HS. split; intros x w' H.
  - by eapply Read_failure_calls_once.
  - by eapply Stat_failure_calls_once.
Qed.

(** With a callback that returns, the worker thread of each operation
    returns as well, having made one call: nothing the engine throws
    leaves the thread. *)
Lemma Write_thread_returns path data (callback : Async.Callback) w :
  defined (impl_Write syncImpl path data w) →
  (∀ error, returns (callback error)) →
  ∃ t i, Async.Write syncImpl path data callback w = Returned tt t ∧ invoked t = [i].
Proof.
  intros Hd Hcb. unfold Async.Write, Async.Write_lambda. thread_unfold.
  destruct (impl_Write syncImpl path data w) as [[] w'|[cls what|] w'|]; [| | |done];
    cbn [world invoked];
    match goal with |- context [callback ?e ?x] =>
      destruct (Hcb e x) as [w'' ->] end; by eexists _, _.
Qed.

Lemma Move_thread_returns fromPath toPath (callback : Async.Callback) w :
  defined (impl_Move syncImpl fromPath toPath w) →
  (∀ error, returns (callback error)) →
  ∃ t i, Async.Move syncImpl fromPath toPath callback w = Returned tt t ∧ invoked t = [i].
Proof.
  intros Hd Hcb. unfold Async.Move, Async.Move_lambda. thread_unfold.
  destruct (impl_Move syncImpl fromPath toPath w) as [[] w'|[cls what|] w'|]; [| | |done];
    cbn [world invoked];
    match goal with |- context [callback ?e ?x] =>
      destruct (Hcb e x) as [w'' ->] end; by eexists _, _.
Qed.

Lemma Remove_thread_returns path (callback : Async.Callback) w :
  defined (impl_Remove syncImpl path w) →
  (∀ error, returns (callback error)) →
  ∃ t i, Async.Remove syncImpl path callback w = Returned tt t ∧ invoked t = [i].
Proof.
  intros Hd Hcb. unfold Async.Remove, Async.Remove_lambda. thread_unfold.
  destruct (impl_Remove syncImpl path w) as [[] w'|[cls what|] w'|]; [| | |done];
    cbn [world invoked];
    match goal with |- context [callback ?e ?x] =>
      destruct (Hcb e x) as [w'' ->] end; by eexists _, _.
Qed.

Lemma Read_thread_returns path (callback : Async.ReadCallback) w :
  defined (impl_Read syncImpl path w) →
  (∀ data error, returns (callback data error)) →
  ∃ t i, Async.Read syncImpl path callback w = Returned tt t ∧ invoked t = [i].
Proof.
  intros Hd Hcb. unfold Async.Read, Async.Read_lambda. thread_unfold.
  destruct (impl_Read syncImpl path w) as [data w'|[cls what|] w'|]; [| | |done];
    cbn [world invoked Async.record_call Async.set_world];
    match goal with |- context [callback ?d ?e ?x] =>
      destruct (Hcb d e x) as [w'' ->] end; by eexists _, _.
Qed.

Lemma Stat_thread_returns path (callback : Async.StatCallback) w :
  defined (impl_Stat syncImpl path w) →
  (∀ result error, returns (callback result error)) →
  ∃ t i, Async.Stat syncImpl path callback w = Returned tt t ∧ invoked t = [i].
Proof.
  intros Hd Hcb. unfold Async.Stat, Async.Stat_lambda. thread_unfold.
  destruct (impl_Stat syncImpl path w) as [data w'|[cls what|] w'|]; [| | |done];
    cbn [world invoked Async.record_call Async.set_world];
    match goal with |- context [callback ?d ?e ?x] =>
      destruct (Hcb d e x) as [w'' ->] end; by eexists _, _.
Qed.

(** X13: failures never leave the worker thread.  For every engine and
    every way its call can end, if the callbacks return then the thread
    of each of the five operations returns too (no exception escapes to
    end the process), with exactly one callback call on its record. *)
Theorem failures_stay_in_the_callback (path toPath : string) (data : IOBuffer)
    (onRead : Async.ReadCallback) (onDone : Async.Callback)
    (onStat : Async.StatCallback) (w : W) :
  (∀ data error, returns (onRead data error)) →
  (∀ error, returns (onDone error)) →
  (∀ result error, returns (onStat result error)) →
  (defined (impl_Read syncImpl path w) →
   ∃ t i, Async.Read syncImpl path onRead w = Returned tt t ∧ invoked t = [i])
  ∧ (defined (impl_Write syncImpl path data w) →
     ∃ t i, Async.Write syncImpl path data onDone w = Returned tt t ∧ invoked t = [i])
  ∧ (defined (impl_Move syncImpl path toPath w) →
     ∃ t i, Async.Move syncImpl path toPath onDone w = Returned tt t ∧ invoked t = [i])
  ∧ (defined (impl_Remove syncImpl path w) →
     ∃ t i, Async.Remove syncImpl path onDone w = Returned tt t ∧ invoked t = [i])
  ∧ (defined (impl_Stat syncImpl path w) →
     ∃ t i, Async.Stat syncImpl path onStat w = Returned tt t ∧ invoked t = [i]).
Proof.
  intros HR HD HS. repeat split; intros Hd.
  - by apply Read_thread_returns.
  - by apply Write_thread_returns.
  - by apply Move_thread_returns.
  - by apply Remove_thread_returns.
  - by apply Stat_thread_returns.
Qed.

End AdapterMore.

Lemma callback_after_try_called_once_witness :
  ∃ error,
    reported_error ("Unknown error while writing to " +:+ "a")
      (impl_Write foreign_engine "a" [x00] example_os) = Some error
    ∧ Async.calls (Async.Write foreign_engine "a" [x00] throwing_Callback example_os)
      = Some [call_Callback error].
Proof.
  apply (proj1 (callback_after_try_called_once foreign_engine "a" "b" [x00]
                  throwing_Callback example_os
                  ltac:(intros error w' H; discriminate H)));
    intros H; discriminate H.
Defined.

Lemma engine_failure_reported_once_witness :
  ∃ error,
    reported_error (A:=IOBuffer) ("Unknown error while reading from " +:+ "a")
      (Threw foreign_value example_os) = Some error
    ∧ Async.calls (Async.Read foreign_engine "a" throwing_ReadCallback example_os)
      = Some [call_ReadCallback [] error].
Proof.
  apply (proj1 (engine_failure_reported_once foreign_engine "a"
                  throwing_ReadCallback throwing_StatCallback example_os
                  ltac:(intros data error w' H; discriminate H)
                  ltac:(intros result error w' H; discriminate H))
           foreign_value example_os eq_refl).
Defined.

Lemma failures_stay_in_the_callback_witness :
  ∃ t i, Async.Move foreign_engine "a" "b" quiet_Callback example_os = Returned tt t
         ∧ invoked t = [i].
Proof.
  apply (proj1 (proj2 (proj2
           (failures_stay_in_the_callback foreign_engine "a" "b" [x00]
              quiet_ReadCallback quiet_Callback quiet_StatCallback example_os
              ltac:(intros data error s; by eexists)
              ltac:(intros error s; by eexists)
              ltac:(intros result error s; by eexists)))));
    intros H; discriminate H.
Defined.

(** ** The adapter over the engine of the sources *)

Lemma nonempty_text (message detail : string) a rest :
  (String a rest +:+ message) +:+ detail ≠ "".
Proof. rewrite !append_cons. discriminate. Qed.

Lemma Read_engine_like path os : engine_like (Sync.Read path os).
Proof.
  destruct (ifstream_open_returns path os) as (file & os' & Hopen & Hpos).
  rewrite (Read_after_open _ _ _ _ Hopen Hpos).
  destruct (in_failbit file); [apply nonempty_text|].
  destruct (decide (in_end file < 0)%Z); [done|].
  by destruct (decide (memory os' < in_end file)%Z).
Qed.

Lemma Write_engine_like path data os : engine_like (Sync.Write path data os).
Proof. by destruct (Write_never_throws path data os) as [os' ->]. Qed.

Lemma rename_returns a b os : ∃ r os', rename a b os = Returned r os'.
Proof.
  rewrite rename_by_cases. destruct (fault os _); [by eexists _, _|].
  destruct (disk os !! a); by eexists _, _.
Qed.

Lemma remove_returns path os : ∃ r os', remove path os = Returned r os'.
Proof.
  rewrite remove_by_cases. destruct (fault os _); [by eexists _, _|].
  destruct (disk os !! path); by eexists _, _.
Qed.

Lemma Move_engine_like a b os : engine_like (Sync.Move a b os).
Proof.
  destruct (rename_returns a b os) as (r & os' & H).
  rewrite (Move_after_rename _ _ _ _ _ H).
  destruct (decide (r ≠ 0%Z)); [apply nonempty_text|done].
Qed.

Lemma Remove_engine_like path os : engine_like (Sync.Remove path os).
Proof.
  destruct (remove_returns path os) as (r & os' & H).
  rewrite (Remove_after_remove _ _ _ _ H).
  destruct (decide (r ≠ 0%Z)); [apply nonempty_text|done].
Qed.

Lemma Stat_engine_like path os : engine_like (Sync.Stat path os).
Proof.
  destruct (stat_returns path os) as [(ino & _ & Hf & Hd)|(e & Hs & _)].
  - by rewrite (Stat_present _ _ _ Hf Hd).
  - rewrite (Stat_after_failure path os e zero_stat (-1)%Z Hs ltac:(done)).
    destruct (decide (e = ENOENT)); [done|apply nonempty_text].
Qed.

Lemma engine_like_defined {S A} (o : outcome S A) : engine_like o → defined o.
Proof. by destruct o. Qed.

(** For an engine-like ending, the reported error is empty exactly when
    the call returned. *)
Lemma reported_error_empty_iff {S A} generic (o : outcome S A) error :
  engine_like o → reported_error generic o = Some error →
  (error = "" ↔ ∃ a s, o = Returned a s).
Proof.
  destruct o as [a s|[cls what|] s|]; cbn; try done.
  - intros _ [= <-]. split; [by eexists _, _|done].
  - intros Hne [= <-]. split; [done|]. by intros (? & ? & ?).
Qed.

Lemma returns_defined {S} (m : M S unit) : returns m → ∀ s, defined (m s).
Proof. intros H s. destruct (H s) as [s' ->]. done. Qed.

Lemma Stat_default_engine_once this path (callback : Async.StatCallback) (os : OS) :
  (∀ result error, returns (callback result error)) →
  ∃ result error,
    Async.calls (Async.Stat (DefaultSyncImpl this) path callback os)
    = Some [call_StatCallback result error]
    ∧ ((error = "" ∧ ∃ os', Sync.Stat path os = Returned result os')
       ∨ (error ≠ "" ∧ result = StatResult_default
          ∧ ∃ x os', Sync.Stat path os = Threw x os')).
Proof.
  intros Hcb.
  pose proof (Stat_engine_like path os) as Hlike.
  destruct (Sync.Stat path os) as [r os'|[cls what|] os'|] eqn:HS; try done.
  - destruct (Hcb r "" os') as [w'' Hret].
    exists r, "". split; [|left; split; [done|by eexists]].
    by eapply (Stat_success_calls_once (DefaultSyncImpl this)).
  - destruct (Stat_failure_calls_once (DefaultSyncImpl this) path callback os os' _ HS)
      as (error & Herr & Hcalls).
    { intros result error w''. by apply returns_defined. }
    injection Herr as <-.
    exists StatResult_default, what. split; [exact Hcalls|]. right.
    split; [exact Hlike|]. split; [done|by eexists _, _].
Qed.

(** X14: over the engine of the sources, with callbacks that return,
    every operation calls its callback exactly once, and the error it
    hands over is empty exactly when the engine call returned: [Read]
    and [Stat] pass the result with an empty error, or the default
    result with a non-empty error; [Move] and [Remove] pass an empty
    error exactly when they succeeded; [Write] always passes an empty
    error. *)
Theorem default_engine_exactly_once (this : DefaultFileSystemSync)
    (path toPath : string) (data : IOBuffer)
    (onRead : Async.ReadCallback) (onDone : Async.Callback)
    (onStat : Async.StatCallback) (os : OS) :
  (∀ data error, returns (onRead data error)) →
  (∀ error, returns (onDone error)) →
  (∀ result error, returns (onStat result error)) →
  (∃ bytes error,
     Async.calls (Async.Read (DefaultSyncImpl this) path onRead os)
     = Some [call_ReadCallback bytes error]
     ∧ ((error = "" ∧ ∃ os', Sync.Read path os = Returned bytes os')
        ∨ (error ≠ "" ∧ bytes = [] ∧ ∃ x os', Sync.Read path os = Threw x os')))
  ∧ Async.calls (Async.Write (DefaultSyncImpl this) path data onDone os)
    = Some [call_Callback ""]
  ∧ (∃ error,
       Async.calls (Async.Move (DefaultSyncImpl this) path toPath onDone os)
       = Some [call_Callback error]
       ∧ (error = "" ↔ ∃ os', Sync.Move path toPath os = Returned tt os'))
  ∧ (∃ error,
       Async.calls (Async.Remove (DefaultSyncImpl this) path onDone os)
       = Some [call_Callback error]
       ∧ (error = "" ↔ ∃ os', Sync.Remove path os = Returned tt os'))
  ∧ (∃ result error,
       Async.calls (Async.Stat (DefaultSyncImpl this) path onStat os)
       = Some [call_StatCallback result error]
       ∧ ((error = "" ∧ ∃ os', Sync.Stat path os = Returned result os')
          ∨ (error ≠ "" ∧ result = StatResult_default
             ∧ ∃ x os', Sync.Stat path os = Threw x os'))).
Proof.
  intros HR HD HS.
  assert (HDd : ∀ error w', defined (onDone error w'))
    by (intros error w'; by apply returns_defined).
  split; [by apply Read_default_engine_once|].
  split; [|split; [|split; [|by apply Stat_default_engine_once]]].
  - destruct (Write_calls_once (DefaultSyncImpl this) path data onDone os)
      as (error & Herr & Hcalls); [apply engine_like_defined, Write_engine_like|done|].
    cbn [impl_Write DefaultSyncImpl] in Herr.
    destruct (Write_never_throws path data os) as [os' HW]. rewrite HW in Herr.
    by injection Herr as <-.
  - destruct (Move_calls_once (DefaultSyncImpl this) path toPath onDone os)
      as (error & Herr & Hcalls); [apply engine_like_defined, Move_engine_like|done|].
    exists error. split; [exact Hcalls|].
    rewrite (reported_error_empty_iff _ _ _ (Move_engine_like path toPath os) Herr).
    cbn [impl_Move DefaultSyncImpl]. split.
    + intros ([] & s & H). by exists s.
    + intros (s & H). by exists tt, s.
  - destruct (Remove_calls_once (DefaultSyncImpl this) path onDone os)
      as (error & Herr & Hcalls); [apply engine_like_defined, Remove_engine_like|done|].
    exists error. split; [exact Hcalls|].
    rewrite (reported_error_empty_iff _ _ _ (Remove_engine_like path os) Herr).
    cbn [impl_Remove DefaultSyncImpl]. split.
    + intros ([] & s & H). by exists s.
    + intros (s & H). by exists tt, s.
Qed.

Lemma default_engine_exactly_once_witness :
  Async.calls (Async.Write (DefaultSyncImpl {| basePath := "" |})
                 "/readonly/prefs.json" [x7b] quiet_Callback example_os)
  = Some [call_Callback ""]
  ∧ ∃ error,
      Async.calls (Async.Move (DefaultSyncImpl {| basePath := "" |})
                     "/data/missing" "/data/x" quiet_Callback example_os)
      = Some [call_Callback error]
      ∧ (error = "" ↔ ∃ os', Sync.Move "/data/missing" "/data/x" example_os
                              = Returned tt os').
Proof.
  destruct (default_engine_exactly_once {| basePath := "" |}
              "/readonly/prefs.json" "/data/x" [x7b]
              quiet_ReadCallback quiet_Callback quiet_StatCallback example_os
              ltac:(intros data error s; by eexists)
              ltac:(intros error s; by eexists)
              ltac:(intros result error s; by eexists)) as (_ & HW & _).
  destruct (default_engine_exactly_once {| basePath := "" |}
              "/data/missing" "/data/x" [x7b]
              quiet_ReadCallback quiet_Callback quiet_StatCallback example_os
              ltac:(intros data error s; by eexists)
              ltac:(intros error s; by eexists)
              ltac:(intros result error s; by eexists)) as (_ & _ & HM & _).
  exact (conj HW HM).
Defined.

(** ** More on base paths *)

Lemma length_append s t :
  String.length (s +:+ t) = String.length s + String.length t.
Proof.
  induction s as [|a s IH]; [done|].
  rewrite append_cons. cbn [String.length]. by rewrite IH.
Qed.

Lemma front_append s t : s ≠ "" → StdString.front (s +:+ t) = StdString.front s.
Proof. by destruct s. Qed.

Lemma push_nonempty s c : StdString.push s c ≠ "".
Proof. unfold StdString.push. by destruct s. Qed.

Lemma front_push s c : s ≠ "" → StdString.front (StdString.push s c) = StdString.front s.
Proof. by destruct s. Qed.

Lemma eqb_nonempty s : s ≠ "" → String.eqb s "" = false.
Proof. by destruct s. Qed.

Lemma Resolve_relative this path c :
  basePath this ≠ "" → StdString.front path = Some c → c ≠ PATH_SEPARATOR →
  Sync.Resolve this path = StdString.push (basePath this) PATH_SEPARATOR +:+ path.
Proof.
  intros Hb Hf Hc. unfold Sync.Resolve. rewrite (eqb_nonempty _ Hb), Hf.
  by destruct (Ascii.eqb_spec c PATH_SEPARATOR).
Qed.

Lemma Resolve_absolute this path :
  StdString.front path = Some PATH_SEPARATOR → Sync.Resolve this path = path.
Proof.
  intros Hf. unfold Sync.Resolve. destruct (String.eqb (basePath this) ""); [done|].
  rewrite Hf. by rewrite Ascii.eqb_refl.
Qed.

(** X15: resolving twice.  With an empty base path, or one that starts
    with the separator, [Resolve] is idempotent: a resolved path resolves
    to itself.  With any other base path it is not: a non-empty relative
    path gets the base path in front once more each time. *)
Theorem Resolve_twice (this : DefaultFileSystemSync) (path : string) :
  (basePath this = "" ∨ StdString.front (basePath this) = Some PATH_SEPARATOR →
   Sync.Resolve this (Sync.Resolve this path) = Sync.Resolve this path)
  ∧ (∀ b c, StdString.front (basePath this) = Some b → b ≠ PATH_SEPARATOR →
            StdString.front path = Some c → c ≠ PATH_SEPARATOR →
     Sync.Resolve this (Sync.Resolve this path)
     = StdString.push (basePath this) PATH_SEPARATOR
       +:+ StdString.push (basePath this) PATH_SEPARATOR +:+ path
     ∧ Sync.Resolve this (Sync.Resolve this path) ≠ Sync.Resolve this path).
Proof.
  split.
  - intros [Hb|Hb].
    + unfold Sync.Resolve. by rewrite Hb.
    + assert (Hne : basePath this ≠ "") by (intros E; by rewrite E in Hb).
      destruct (StdString.front path) as [c|] eqn:Hf.
      * destruct (decide (c = PATH_SEPARATOR)) as [->|Hc].
        { by rewrite !(Resolve_absolute _ _ Hf). }
        rewrite (Resolve_relative _ _ _ Hne Hf Hc). apply Resolve_absolute.
        rewrite front_append by apply push_nonempty. by rewrite front_push.
      * destruct path; [|done]. unfold Sync.Resolve.
        by destruct (String.eqb (basePath this) "").
  - intros b c Hb Hbs Hf Hc.
    assert (Hne : basePath this ≠ "") by (intros E; by rewrite E in Hb).
    rewrite (Resolve_relative _ _ _ Hne Hf Hc).
    assert (Hagain : Sync.Resolve this (StdString.push (basePath this) PATH_SEPARATOR +:+ path)
                     = StdString.push (basePath this) PATH_SEPARATOR
                       +:+ StdString.push (basePath this) PATH_SEPARATOR +:+ path).
    { apply (Resolve_relative _ _ b); [done| |done].
      rewrite front_append by apply push_nonempty. by rewrite front_push. }
    rewrite Hagain. split; [done|].
    intros E. apply (f_equal String.length) in E.
    rewrite !length_append, length_push in E. lia.
Qed.

Lemma Resolve_twice_witness :
  Sync.Resolve {| basePath := "/a/b" |} (Sync.Resolve {| basePath := "/a/b" |} "c")
  = Sync.Resolve {| basePath := "/a/b" |} "c"
  ∧ Sync.Resolve {| basePath := "data" |} (Sync.Resolve {| basePath := "data" |} "c")
    ≠ Sync.Resolve {| basePath := "data" |} "c".
Proof.
  split.
  - apply (proj1 (Resolve_twice {| basePath := "/a/b" |} "c")). by right.
  - apply (proj2 (Resolve_twice {| basePath := "data" |} "c") "d"%char "c"%char);
      [reflexivity|discriminate|reflexivity|discriminate].
Defined.

(** X16: a trailing separator on the argument of [SetBasePath] makes no
    difference, and neither does the base path that was set before: for
    every non-empty base that does not itself end in the separator,
    setting it with or without one more separator leaves the same object,
    and every later [Resolve] agrees. *)
Theorem SetBasePath_trailing_separator_irrelevant (base : string)
    (before before' : DefaultFileSystemSync) :
  base ≠ "" →
  StdString.back base ≠ Some PATH_SEPARATOR →
  Sync.SetBasePath (StdString.push base PATH_SEPARATOR) before
  = Returned tt {| basePath := base |}
  ∧ Sync.SetBasePath base before' = Returned tt {| basePath := base |}
  ∧ ∀ path,
      match Sync.SetBasePath (StdString.push base PATH_SEPARATOR) before,
            Sync.SetBasePath base before' with
      | Returned _ with_slash, Returned _ without =>
          Sync.Resolve with_slash path = Sync.Resolve without path
      | _, _ => False
      end.
Proof.
  intros Hne Hback.
  assert (H1 := SetBasePath_separator base before).
  assert (H2 : Sync.SetBasePath base before' = Returned tt {| basePath := base |}).
  { destruct (StdString.back base) as [c|] eqn:Hb.
    - apply (SetBasePath_other _ c); [done|congruence].
    - by apply back_None in Hb. }
  split; [done|]. split; [done|]. intros path. by rewrite H1, H2.
Qed.

Lemma SetBasePath_trailing_separator_irrelevant_witness :
  Sync.SetBasePath (StdString.push "data/filters" PATH_SEPARATOR) {| basePath := "/old" |}
  = Returned tt {| basePath := "data/filters" |}
  ∧ Sync.SetBasePath "data/filters" {| basePath := "" |}
    = Returned tt {| basePath := "data/filters" |}.
Proof.
  destruct (SetBasePath_trailing_separator_irrelevant "data/filters"
              {| basePath := "/old" |} {| basePath := "" |}
              ltac:(discriminate) ltac:(discriminate)) as (H1 & H2 & _).
  exact (conj H1 H2).
Defined.

(** ** More on [Evaluate] *)

Lemma c_str_cut s t : V8.c_str (s +:+ String Ascii.zero t) = V8.c_str s.
Proof.
  induction s as [|a s IH]; [done|].
  rewrite append_cons. cbn [V8.c_str]. by rewrite IH.
Qed.

Lemma length_cut_nonzero s t :
  s ≠ "" → (String.length (s +:+ String Ascii.zero t) =? 0) = (String.length s =? 0).
Proof. by destruct s. Qed.

Section EvaluateMore.
Context {Isolate Value Script : Type}.
Context (Utf8Value : Value → string).
Context (Compile : string → option string → Isolate
                   → (Script + V8.Caught Value) * Isolate).
Context (Run : Script → Isolate → (Value + V8.Caught Value) * Isolate).

(** X17: the source and the file name reach V8 as C strings, so
    [Evaluate] does not see a NUL character or anything after it:
    whatever follows a NUL in the source changes nothing, and neither
    does what follows a NUL in a non-empty file name. *)
Theorem Evaluate_stops_at_NUL (this : addr) (source filename rest : string)
    (w : V8.World Isolate Value Script) :
  V8.Evaluate Isolate Value Script Utf8Value Compile Run this
    (source +:+ String Ascii.zero rest) filename w
  = V8.Evaluate Isolate Value Script Utf8Value Compile Run this source filename w
  ∧ (filename ≠ "" →
     V8.Evaluate Isolate Value Script Utf8Value Compile Run this source
       (filename +:+ String Ascii.zero rest) w
     = V8.Evaluate Isolate Value Script Utf8Value Compile Run this source filename w).
Proof.
  split.
  - unfold V8.Evaluate, V8.CompileScript. by rewrite c_str_cut.
  - intros Hne. unfold V8.Evaluate, V8.CompileScript.
    by rewrite c_str_cut, length_cut_nonzero.
Qed.

End EvaluateMore.

Lemma Evaluate_stops_at_NUL_witness :
  V8.Evaluate unit string string id toy_Compile toy_Run 1 "6 * 7"
    ("filters.js" +:+ String Ascii.zero "ignored") toy_world
  = V8.Evaluate unit string string id toy_Compile toy_Run 1 "6 * 7" "filters.js" toy_world.
Proof.
  apply (proj2 (Evaluate_stops_at_NUL id toy_Compile toy_Run 1 "6 * 7" "filters.js"
                  "ignored" toy_world)).
  discriminate.
Defined.

(** ** Collecting garbage *)

Section GcFacts.
Context {Isolate : Type} (IdleNotification : Isolate → bool * Isolate).

Lemma Gc_first_true k : ∀ isolate fuel,
  (∀ j, j < k → Values.answer IdleNotification j isolate = false) →
  Values.answer IdleNotification k isolate = true →
  k < fuel →
  Values.Gc IdleNotification fuel isolate
  = Some (Values.notified IdleNotification (S k) isolate).
Proof.
  induction k as [|k IH]; intros isolate fuel Hbefore Hk Hfuel.
  - destruct fuel as [|fuel]; [lia|]. unfold Values.answer in Hk. cbn in *.
    destruct (IdleNotification isolate) as [finished isolate']. cbn in *. by subst.
  - destruct fuel as [|fuel]; [lia|].
    pose proof (Hbefore 0 ltac:(lia)) as H0. unfold Values.answer in H0.
    cbn [Values.Gc Values.notified] in *.
    destruct (IdleNotification isolate) as [finished isolate'] eqn:E. cbn in H0. subst.
    change isolate' with (snd (false, isolate')). rewrite <- E.
    apply IH; [|exact Hk|lia].
    intros j Hj. apply (Hbefore (S j)). lia.
Qed.

Lemma Gc_all_false fuel : ∀ isolate,
  (∀ j, j < fuel → Values.answer IdleNotification j isolate = false) →
  Values.Gc IdleNotification fuel isolate = None.
Proof.
  induction fuel as [|fuel IH]; intros isolate Hall; [done|].
  pose proof (Hall 0 ltac:(lia)) as H0. unfold Values.answer in H0.
  cbn [Values.Gc Values.notified] in *.
  destruct (IdleNotification isolate) as [finished isolate'] eqn:E. cbn in H0. subst.
  apply IH. intros j Hj. specialize (Hall (S j) ltac:(lia)).
  unfold Values.answer in *. cbn [Values.notified] in Hall. by rewrite E in Hall.
Qed.

Lemma Gc_returned fuel : ∀ isolate isolate',
  Values.Gc IdleNotification fuel isolate = Some isolate' →
  ∃ k, k < fuel
       ∧ (∀ j, j < k → Values.answer IdleNotification j isolate = false)
       ∧ Values.answer IdleNotification k isolate = true
       ∧ isolate' = Values.notified IdleNotification (S k) isolate.
Proof.
  induction fuel as [|fuel IH]; intros isolate isolate' H; [done|].
  cbn [Values.Gc] in H.
  destruct (IdleNotification isolate) as [[|] next] eqn:E.
  - injection H as <-. exists 0. split; [lia|]. split; [intros j Hj; lia|].
    unfold Values.answer. cbn. by rewrite E.
  - destruct (IH _ _ H) as (k & Hk & Hbefore & Htrue & ->).
    exists (S k). split; [lia|]. split; [|split].
    + intros [|j] Hj.
      * unfold Values.answer. cbn. by rewrite E.
      * unfold Values.answer in *. cbn [Values.notified]. rewrite E. apply Hbefore. lia.
    + unfold Values.answer in *. cbn [Values.notified]. by rewrite E.
    + cbn [Values.notified]. by rewrite E.
Qed.

(** X18: [Gc] keeps notifying V8 until the first notification that
    answers "done", and stops there: if the first such answer is the one
    numbered [k] (counting from 0), then [Gc] returns after exactly
    [k + 1] notifications, given that many rounds or more; it returns
    only in that way; and as long as every answer is "not done" it is
    still looping. *)
Theorem Gc_stops_at_first_done (fuel : nat) (isolate : Isolate) :
  (∀ k, (∀ j, j < k → Values.answer IdleNotification j isolate = false) →
        Values.answer IdleNotification k isolate = true →
        k < fuel →
        Values.Gc IdleNotification fuel isolate
        = Some (Values.notified IdleNotification (S k) isolate))
  ∧ (∀ isolate', Values.Gc IdleNotification fuel isolate = Some isolate' →
       ∃ k, k < fuel
            ∧ (∀ j, j < k → Values.answer IdleNotification j isolate = false)
            ∧ Values.answer IdleNotification k isolate = true
            ∧ isolate' = Values.notified IdleNotification (S k) isolate)
  ∧ ((∀ j, j < fuel → Values.answer IdleNotification j isolate = false) →
     Values.Gc IdleNotification fuel isolate = None).
Proof.
  split; [|split].
  - intros k. apply Gc_first_true.
  - apply Gc_returned.
  - apply Gc_all_false.
Qed.

End GcFacts.

Lemma Gc_stops_at_first_done_witness :
  Values.Gc toy_IdleNotification 5 3 = Some (Values.notified toy_IdleNotification 3 3)
  ∧ Values.Gc toy_IdleNotification 2 3 = None.
Proof.
  split.
  - apply (proj1 (Gc_stops_at_first_done toy_IdleNotification 5 3) 2);
      [|reflexivity|lia].
    intros [|[|j]] Hj; [reflexivity|reflexivity|lia].
  - apply (proj2 (proj2 (Gc_stops_at_first_done toy_IdleNotification 2 3))).
    intros [|[|j]] Hj; [reflexivity|reflexivity|lia].
Defined.

(** ** Converting arguments *)


Section ConvertArgumentsFacts.
Context {V : Type}.



End ConvertArgumentsFacts.


(** ** Callbacks and the life of the engine *)

Lemma release_shared p h c :
  counts h !! p = Some c → 1 < use_count c →
  Memory.release p h = Returned tt (Memory.set_counts (<[p := Memory.drop_use c]>) h).
Proof.
  intros Hc Hu. unfold Memory.release. cpp_unfold. rewrite Hc.
  by rewrite bool_decide_eq_false_2 by lia.
Qed.

Lemma release_last p h c :
  counts h !! p = Some c → use_count c ≤ 1 →
  Memory.release p h
  = Returned tt (Memory.set_objects (delete p)
                   (Memory.set_counts (<[p := Memory.drop_use c]>) h)).
Proof.
  intros Hc Hu. unfold Memory.release. cpp_unfold. rewrite Hc.
  by rewrite bool_decide_eq_true_2 by lia.
Qed.

(** X20: registering a callback does not keep the engine alive.  Once
    the value [NewCallback] returned is dropped, the engine has as many
    owners as before (and one more weak reference).  If it had a single
    owner and that owner lets go, the engine is destroyed, the weak
    reference stays on the heap, and a call of the callback ends in
    [FromArguments] throwing the "engine is gone" error without touching
    the heap. *)
Theorem callback_does_not_keep_engine_alive {InvocationCallback : Type}
    (this : addr) (callback : InvocationCallback) (h : Heap) (c : ref_counts) :
  counts h !! this = Some c →
  use_count c ≠ 0 →
  brk h ≠ this →
  ∃ data h1 h2,
    Engine.NewCallback this callback h
    = Returned {| jsEngine := this;
                  value := {| fn_callback := callback; fn_data := data |} |} h1
    ∧ Memory.release this h1 = Returned tt h2
    ∧ counts h2 !! this
      = Some {| use_count := use_count c; weak_count := S (weak_count c) |}
    ∧ objects h2 !! this = objects h !! this
    ∧ (use_count c = 1 →
       ∃ h3,
         Memory.release this h2 = Returned tt h3
         ∧ objects h3 !! this = None
         ∧ objects h3 !! data = Some (obj_weak_ptr this)
         ∧ Engine.FromArguments {| Data := data |} h3
           = Threw (std_exception runtime_error oops) h3).
Proof.
  intros Hc Hu Hbrk.
  destruct (NewCallback_registers this callback h c Hc Hu) as (h1 & Hcall & Hobj & Hcnt).
  exists (brk h), h1. eexists. split; [exact Hcall|].
  split; [apply (release_shared _ _ _ Hcnt); cbn; lia|].
  cbn [counts objects Memory.set_counts Memory.drop_use use_count weak_count pred].
  rewrite lookup_insert_eq. split; [done|].
  split; [by rewrite Hobj, lookup_insert_ne|].
  intros Hone. eexists. split.
  { apply (release_last _ _ {| use_count := use_count c; weak_count := S (weak_count c) |});
      [cbn; apply lookup_insert_eq|cbn; lia]. }
  cbn [counts objects Memory.set_counts Memory.set_objects Memory.drop_use use_count
       weak_count].
  rewrite lookup_delete_eq. split; [done|].
  assert (Hdata : delete this (objects h1) !! brk h = Some (obj_weak_ptr this)).
  { rewrite lookup_delete_ne by (intros E; by apply Hbrk).
    by rewrite Hobj, lookup_insert_eq. }
  split; [exact Hdata|].
  apply (FromArguments_expired _ this); [exact Hdata|].
  unfold Memory.expired. cbn [counts Memory.set_objects Memory.set_counts].
  rewrite lookup_insert_eq. cbn. rewrite Hone. reflexivity.
Qed.

Lemma callback_does_not_keep_engine_alive_witness :
  ∃ data h1 h2,
    Engine.NewCallback 1 "ReadCallback" example_heap
    = Returned {| jsEngine := 1;
                  value := {| fn_callback := "ReadCallback"; fn_data := data |} |} h1
    ∧ Memory.release 1 h1 = Returned tt h2
    ∧ counts h2 !! 1 = Some {| use_count := 1; weak_count := 1 |}
    ∧ objects h2 !! 1 = objects example_heap !! 1
    ∧ (1 = 1 →
       ∃ h3,
         Memory.release 1 h2 = Returned tt h3
         ∧ objects h3 !! 1 = None
         ∧ objects h3 !! data = Some (obj_weak_ptr 1)
         ∧ Engine.FromArguments {| Data := data |} h3
           = Threw (std_exception runtime_error oops) h3).
Proof.
  apply (callback_does_not_keep_engine_alive 1 "ReadCallback" example_heap
           {| use_count := 1; weak_count := 0 |});
    [reflexivity|discriminate|discriminate].
Defined.

(** ** The three collaborators together *)

Lemma GetFileSystem_empty this e h :
  objects h !! this = Some (obj_JsEngine e) → fileSystem e = None →
  Engine.GetFileSystem this h
  = Returned (Some (brk h))
      {| objects := <[this := obj_JsEngine (with_fileSystem (Some (brk h)) e)]>
                      (<[brk h := obj_DefaultFileSystem]> (objects h));
         counts := counts h; brk := S (brk h) |}.
Proof.
  intros Hobj Hnone. unfold Engine.GetFileSystem. cpp_unfold.
  rewrite (self_engine _ _ _ Hobj), Hnone. reflexivity.
Qed.

Lemma GetWebRequest_empty this e h :
  objects h !! this = Some (obj_JsEngine e) → webRequest e = None →
  Engine.GetWebRequest this h
  = Returned (Some (brk h))
      {| objects := <[this := obj_JsEngine (with_webRequest (Some (brk h)) e)]>
                      (<[brk h := obj_DefaultWebRequest]> (objects h));
         counts := counts h; brk := S (brk h) |}.
Proof.
  intros Hobj Hnone. unfold Engine.GetWebRequest. cpp_unfold.
  rewrite (self_engine _ _ _ Hobj), Hnone. reflexivity.
Qed.

Lemma GetErrorCallback_empty this e h :
  objects h !! this = Some (obj_JsEngine e) → errorCallback e = None →
  Engine.GetErrorCallback this h
  = Returned (Some (brk h))
      {| objects := <[this := obj_JsEngine (with_errorCallback (Some (brk h)) e)]>
                      (<[brk h := obj_DefaultErrorCallback]> (objects h));
         counts := counts h; brk := S (brk h) |}.
Proof.
  intros Hobj Hnone. unfold Engine.GetErrorCallback. cpp_unfold.
  rewrite (self_engine _ _ _ Hobj), Hnone. reflexivity.
Qed.

Lemma GetFileSystem_filled this e h p :
  objects h !! this = Some (obj_JsEngine e) → fileSystem e = Some p →
  Engine.GetFileSystem this h = Returned (Some p) h.
Proof.
  intros Hobj Hp. unfold Engine.GetFileSystem. cpp_unfold.
  by rewrite (self_engine _ _ _ Hobj), Hp.
Qed.

Lemma GetWebRequest_filled this e h p :
  objects h !! this = Some (obj_JsEngine e) → webRequest e = Some p →
  Engine.GetWebRequest this h = Returned (Some p) h.
Proof.
  intros Hobj Hp. unfold Engine.GetWebRequest. cpp_unfold.
  by rewrite (self_engine _ _ _ Hobj), Hp.
Qed.

Lemma GetErrorCallback_filled this e h p :
  objects h !! this = Some (obj_JsEngine e) → errorCallback e = Some p →
  Engine.GetErrorCallback this h = Returned (Some p) h.
Proof.
  intros Hobj Hp. unfold Engine.GetErrorCallback. cpp_unfold.
  by rewrite (self_engine _ _ _ Hobj), Hp.
Qed.

(** X21: the three getters do not get in each other's way.  On an
    engine with no collaborators yet, asking for the file system, the
    web request and the error callback makes three objects at three
    different addresses, one of each default kind; afterwards every
    getter returns its own object again and changes nothing. *)
Theorem lazy_defaults_are_distinct (this : addr) (e : JsEngine) (h : Heap) :
  objects h !! this = Some (obj_JsEngine e) →
  this < brk h →
  fileSystem e = None → webRequest e = None → errorCallback e = None →
  ∃ h1 h2 h3,
    Engine.GetFileSystem this h = Returned (Some (brk h)) h1
    ∧ Engine.GetWebRequest this h1 = Returned (Some (S (brk h))) h2
    ∧ Engine.GetErrorCallback this h2 = Returned (Some (S (S (brk h)))) h3
    ∧ objects h3 !! brk h = Some obj_DefaultFileSystem
    ∧ objects h3 !! S (brk h) = Some obj_DefaultWebRequest
    ∧ objects h3 !! S (S (brk h)) = Some obj_DefaultErrorCallback
    ∧ Engine.GetFileSystem this h3 = Returned (Some (brk h)) h3
    ∧ Engine.GetWebRequest this h3 = Returned (Some (S (brk h))) h3
    ∧ Engine.GetErrorCallback this h3 = Returned (Some (S (S (brk h)))) h3.
Proof.
  intros Hobj Hlt Hfs Hwr Hec.
  eexists _, _, _. split; [by apply GetFileSystem_empty|].
  split.
  { erewrite GetWebRequest_empty; [reflexivity| |].
    - cbn [objects]. apply lookup_insert_eq.
    - exact Hwr. }
  cbn [brk objects].
  split.
  { erewrite GetErrorCallback_empty; [reflexivity| |].
    - cbn [objects]. apply lookup_insert_eq.
    - exact Hec. }
  cbn [brk objects].
  assert (Hself : ∀ o (m : gmap addr object), <[this := o]> m !! this = Some o)
    by (intros; apply lookup_insert_eq).
  split; [|split; [|split; [|split; [|split]]]].
  - rewrite lookup_insert_ne by lia. rewrite lookup_insert_ne by lia.
    rewrite lookup_insert_ne by lia. rewrite lookup_insert_ne by lia.
    rewrite lookup_insert_ne by lia. apply lookup_insert_eq.
  - rewrite lookup_insert_ne by lia. rewrite lookup_insert_ne by lia.
    rewrite lookup_insert_ne by lia. apply lookup_insert_eq.
  - rewrite lookup_insert_ne by lia. apply lookup_insert_eq.
  - eapply GetFileSystem_filled; [apply Hself|reflexivity].
  - eapply GetWebRequest_filled; [apply Hself|reflexivity].
  - eapply GetErrorCallback_filled; [apply Hself|reflexivity].
Qed.

Lemma lazy_defaults_are_distinct_witness :
  ∃ h1 h2 h3,
    Engine.GetFileSystem 1 example_heap = Returned (Some 2) h1
    ∧ Engine.GetWebRequest 1 h1 = Returned (Some 3) h2
    ∧ Engine.GetErrorCallback 1 h2 = Returned (Some 4) h3
    ∧ objects h3 !! 2 = Some obj_DefaultFileSystem
    ∧ objects h3 !! 3 = Some obj_DefaultWebRequest
    ∧ objects h3 !! 4 = Some obj_DefaultErrorCallback
    ∧ Engine.GetFileSystem 1 h3 = Returned (Some 2) h3
    ∧ Engine.GetWebRequest 1 h3 = Returned (Some 3) h3
    ∧ Engine.GetErrorCallback 1 h3 = Returned (Some 4) h3.
Proof.
  apply (lazy_defaults_are_distinct 1 example_engine example_heap);
    [reflexivity|cbn; lia|reflexivity|reflexivity|reflexivity].
Defined.
